(** * bbreader: merge, window and re-emit time-ordered message logs

    A shallow embedding of the bbreader utility (a copy of dfview): the
    windowing send transports [TailedOutput] and [TrimmedOutput], the
    [MessageHandler] callback, the driver [main], and a model of the
    stream multiplexer the driver hands its sources to.

    Conventions.
    - [bb::timeval_t] and [bb::ptime_duration_t] are integers (a count of
      microseconds); only their order and addition are used.
    - [unsigned int] counters are naturals: the program only compares them
      with container sizes and with the count of messages seen, it never
      does arithmetic on them. The [long long] count of messages seen is an
      integer; it goes up by one for a message forwarded and stays far from
      the end of its range.
    - A C++ object that is mutated in place becomes a value that is
      threaded through: [send] returns the transport after the call.
    - A destructor becomes [release], which returns what the transport at
      the end of the chain has received once the chain is gone. *)

From stdpp Require Import base decidable option list sorting gmap strings.
From Stdlib Require Import ZArith Ascii.

Local Open Scope Z_scope.
Local Open Scope nat_scope.

(** ** Messages *)

(** [bb::Msg]: the header's [time_sent] is the ordering time; the message
    type and the payload are carried along untouched. [clone] copies a
    message, which for a value is the identity. *)
Record Msg := mkMsg {
  time_sent : Z;
  mtype : nat;
  payload : string
}.

#[global] Instance Msg_eq_dec : EqDecision Msg.
Proof. solve_decision. Defined.

Definition clone (m : Msg) : Msg := m.

(** ** Send transports *)

(** The transport at the end of a chain, chosen by the output flags. The
    encoding itself is the library's; what the transport was asked to send
    is recorded in order. *)
Inductive Encoding := DevNull | DGramWrite | JsonWrite | TextWrite.

#[global] Instance Encoding_eq_dec : EqDecision Encoding.
Proof. solve_decision. Defined.

Record TerminalTransport := mkTerminal {
  encoding : Encoding;
  compressed : bool;
  received : list Msg
}.

(** [bb::ISendTransport]: [send] is the virtual method; [release] is the
    destructor run when the last reference to the transport goes away,
    followed by the release of the transports it holds. [terminal] is not
    a method of the program: it reads the transport at the end of the
    chain as it is now, for the statements below. *)
Class ISendTransport (T : Type) := {
  send : T → Msg → T;
  release : T → TerminalTransport;
  terminal : T → TerminalTransport
}.

#[global] Instance TerminalTransport_send : ISendTransport TerminalTransport := {
  send t m := mkTerminal (encoding t) (compressed t) (received t ++ [m]);
  release t := t;
  terminal t := t
}.

Section Windows.
Context {Out : Type} `{!ISendTransport Out}.

(** *** TailedOutput *)

Record TailedOutput := mkTailed {
  tailed_out : Out;
  tailed_num : nat;
  tailed_buf : list Msg
}.

(** [while (buf.size() > num) { delete buf.front(); buf.pop_front(); }] *)
Fixpoint tailed_while (num : nat) (buf : list Msg) : list Msg :=
  match buf with
  | [] => []
  | _ :: rest => if decide (num < length buf) then tailed_while num rest else buf
  end.

Definition tailed_send (t : TailedOutput) (m : Msg) : TailedOutput :=
  let buf := tailed_buf t ++ [clone m] in
  mkTailed (tailed_out t) (tailed_num t) (tailed_while (tailed_num t) buf).

(** [~TailedOutput]: every buffered message goes to [out], oldest first;
    then the member [out] is released. *)
Definition tailed_release (t : TailedOutput) : TerminalTransport :=
  release (foldl send (tailed_out t) (tailed_buf t)).

(** *** TrimmedOutput *)

Record TrimmedOutput := mkTrimmed {
  trimmed_out : Out;
  trimmed_num : nat;
  trimmed_buf : list Msg
}.

(** [while (buf.size() > num) { out->send(buf.front()); delete buf.front();
    buf.pop_front(); }] *)
Fixpoint trimmed_while (num : nat) (buf : list Msg) (out : Out) : Out * list Msg :=
  match buf with
  | [] => (out, [])
  | front :: rest =>
      if decide (num < length buf) then trimmed_while num rest (send out front)
      else (out, buf)
  end.

Definition trimmed_send (t : TrimmedOutput) (m : Msg) : TrimmedOutput :=
  let buf := trimmed_buf t ++ [clone m] in
  let '(out, buf) := trimmed_while (trimmed_num t) buf (trimmed_out t) in
  mkTrimmed out (trimmed_num t) buf.

(** [~TrimmedOutput]: the buffered messages are deleted, nothing is sent;
    then the member [out] is released. *)
Definition trimmed_release (t : TrimmedOutput) : TerminalTransport :=
  release (trimmed_out t).

End Windows.

Arguments TailedOutput Out : clear implicits.
Arguments TrimmedOutput Out : clear implicits.

#[global] Instance TailedOutput_send `{!ISendTransport Out} : ISendTransport (TailedOutput Out) := {
  send := tailed_send;
  release := tailed_release;
  terminal t := terminal (tailed_out t)
}.

#[global] Instance TrimmedOutput_send `{!ISendTransport Out} : ISendTransport (TrimmedOutput Out) := {
  send := trimmed_send;
  release := trimmed_release;
  terminal t := terminal (trimmed_out t)
}.

(** The four shapes [main] can give its [out] pointer: the terminal
    transport, wrapped in a [TailedOutput] when [tail_len > 0], and then in
    a [TrimmedOutput] when [trim_len > 0]. *)
Inductive OutChain :=
  | Bare (t : TerminalTransport)
  | Tailed (t : TailedOutput TerminalTransport)
  | Trimmed (t : TrimmedOutput TerminalTransport)
  | TrimmedTailed (t : TrimmedOutput (TailedOutput TerminalTransport)).

#[global] Instance OutChain_send : ISendTransport OutChain := {
  send c m :=
    match c with
    | Bare t => Bare (send t m)
    | Tailed t => Tailed (send t m)
    | Trimmed t => Trimmed (send t m)
    | TrimmedTailed t => TrimmedTailed (send t m)
    end;
  release c :=
    match c with
    | Bare t => release t
    | Tailed t => release t
    | Trimmed t => release t
    | TrimmedTailed t => release t
    end;
  terminal c :=
    match c with
    | Bare t => terminal t
    | Tailed t => terminal t
    | Trimmed t => terminal t
    | TrimmedTailed t => terminal t
    end
}.

(** [if (tail_len > 0) out.reset(new TailedOutput(out, tail_len));
     if (trim_len > 0) out.reset(new TrimmedOutput(out, trim_len));] *)
Definition build_chain (out : TerminalTransport) (tail_len trim_len : nat) : OutChain :=
  if decide (0 < tail_len) then
    let tailed := mkTailed out tail_len [] in
    if decide (0 < trim_len) then TrimmedTailed (mkTrimmed tailed trim_len [])
    else Tailed tailed
  else
    if decide (0 < trim_len) then Trimmed (mkTrimmed out trim_len [])
    else Bare out.

(** The messages at the 0-indexed positions [lo, hi) of a stream. *)
Definition positions (lo hi : Z) (l : list Msg) : list Msg :=
  take (Z.to_nat hi - Z.to_nat lo) (drop (Z.to_nat lo) l).

(** ** The stream callback *)

(** What a call of [IMStreamCallback::onMessage] does to the run: it throws,
    or it returns, having possibly called [stop] on the multiplexer and
    written a label on standard output. *)
Inductive Callback (H : Type) :=
  | Raised (what : string)
  | Returned (h : H) (stop : bool) (label : option string).

Arguments Raised {H} what.
Arguments Returned {H} h stop label.

(** [bb::IMStreamCallback]. The multiplexer passes the stream the message
    came from, which is what the handler reads back with [getOrigin]. *)
Class IMStreamCallback (H : Type) := {
  onMessage : H → nat → Msg → Callback H
}.

Record MessageHandler (T : Type) := mkHandler {
  m_streamNames : option (gmap nat string);
  m_headLen : nat;
  m_out : T;
  m_messagesSeen : Z;
  m_startTv : Z;
  m_endTv : Z
}.

Arguments mkHandler {T}.
Arguments m_streamNames {T}.
Arguments m_headLen {T}.
Arguments m_out {T}.
Arguments m_messagesSeen {T}.
Arguments m_startTv {T}.
Arguments m_endTv {T}.

Section Handler.
Context {T : Type} `{!ISendTransport T}.

Definition setStreamNames (h : MessageHandler T) (stream_names : gmap nat string) :
    MessageHandler T :=
  mkHandler (Some stream_names) (m_headLen h) (m_out h) (m_messagesSeen h)
            (m_startTv h) (m_endTv h).

(** The chain of tests of [onMessage], after the name of the origin has
    been printed. *)
Definition dispatch (h : MessageHandler T) (msg : Msg) (label : option string) :
    Callback (MessageHandler T) :=
  if decide (0 < m_headLen h ∧ (Z.of_nat (m_headLen h) ≤ m_messagesSeen h)%Z) then
    Returned h true label
  else if decide (m_endTv h ≤ time_sent msg)%Z then
    Returned h true label
  else if decide (m_startTv h ≤ time_sent msg)%Z then
    Returned (mkHandler (m_streamNames h) (m_headLen h) (send (m_out h) msg)
                        (m_messagesSeen h + 1)%Z (m_startTv h) (m_endTv h))
             false label
  else
    Returned h false label.

Definition handler_onMessage (h : MessageHandler T) (origin : nat) (msg : Msg) :
    Callback (MessageHandler T) :=
  match m_streamNames h with
  | Some names =>
      match names !! origin with
      | Some name => dispatch h msg (Some name)
      | None => Raised "failed to find name for stream"
      end
  | None => dispatch h msg None
  end.

End Handler.

#[global] Instance MessageHandler_callback `{!ISendTransport T} :
    IMStreamCallback (MessageHandler T) := {
  onMessage := handler_onMessage
}.

(** ** Sources and the multiplexer *)

(** Modelled from the spec: the streams of [bb/io/DFStream.h] (the
    readers, [FixedDelayDFStream], [DFStreamMplex]) are not among the
    sources. A Source (section 4.1) is an ordered stream with a cursor,
    here the messages it has yet to yield and whether a read error waits
    behind them; [origin] is the stream [getOrigin] names for it. *)
Record Source := mkSource {
  origin : nat;
  pending : list Msg;
  faulty : bool
}.

Inductive ReadResult := Message (m : Msg) | EndOfStream | ReadError.

(** Modelled from the spec: [next] of section 4.1, which yields the next
    message, or end of stream (for good, however often it is asked), or a
    read error, after which the Source is exhausted. *)
Definition next (s : Source) : ReadResult * Source :=
  match pending s with
  | m :: rest => (Message m, mkSource (origin s) rest (faulty s))
  | [] => (if faulty s then ReadError else EndOfStream, s)
  end.

(** Modelled from the spec: the Delay-Shifted Source of section 4.2, which
    adds a fixed duration to the ordering time of every message of the
    Source it wraps and leaves the rest of the message alone. *)
Definition delay_msg (delay : Z) (m : Msg) : Msg :=
  mkMsg (time_sent m + delay)%Z (mtype m) (payload m).

(** Modelled from the spec: the seek of section 4.1, which lands on the
    first record at or after the start time. *)
Fixpoint seek (start : Z) (records : list Msg) : list Msg :=
  match records with
  | [] => []
  | m :: rest => if decide (time_sent m < start)%Z then seek start rest else records
  end.

(** Modelled from the spec: the working set of the Multiplexer of section
    4.3, one slot per live Source with its peeked, not yet consumed next
    message. *)
Record Slot := mkSlot {
  stream : Source;
  cached : option Msg
}.

(** Modelled from the spec: the lazy filling of the cache slots of section
    4.3. A Source at end of stream leaves the live set; so does one that
    returns a read error, and the error is noted. *)
Fixpoint refill (slots : list Slot) : list Slot * bool :=
  match slots with
  | [] => ([], false)
  | s :: rest =>
      let '(live, failed) := refill rest in
      match cached s with
      | Some _ => (s :: live, failed)
      | None =>
          match next (stream s) with
          | (Message m, s') => (mkSlot s' (Some m) :: live, failed)
          | (EndOfStream, _) => (live, failed)
          | (ReadError, _) => (live, true)
          end
      end
  end.

(** Modelled from the spec: the selection of section 4.3, the slot whose
    cached message has the least ordering time, the first registered one
    among equals; the slot is cleared. *)
Fixpoint select (slots : list Slot) : option (nat * Msg * list Slot) :=
  match slots with
  | [] => None
  | s :: rest =>
      match cached s, select rest with
      | None, Some (o, m, rest') => Some (o, m, s :: rest')
      | None, None => None
      | Some m, Some (o', m', rest') =>
          if decide (time_sent m' < time_sent m)%Z then Some (o', m', s :: rest')
          else Some (origin (stream s), m, mkSlot (stream s) None :: rest)
      | Some m, None => Some (origin (stream s), m, mkSlot (stream s) None :: rest)
      end
  end.

(** How a run of the multiplexer ended: the live set was empty, the
    consumer asked to stop, the consumer threw; or the rounds allotted to
    the loop below ran out, which [mplex_run] never lets happen. *)
Inductive Ending := Exhausted | Stopped | Thrown | Unfinished.

#[global] Instance Ending_eq_dec : EqDecision Ending.
Proof. solve_decision. Defined.

Record Run (H : Type) := mkRun {
  delivered : list (nat * Msg);
  labels : list string;
  final : H;
  ending : Ending;
  read_error : bool
}.

Arguments mkRun {H}.
Arguments delivered {H}.
Arguments labels {H}.
Arguments final {H}.
Arguments ending {H}.
Arguments read_error {H}.

Section Multiplexer.
Context {H : Type} `{!IMStreamCallback H}.

Definition after_delivery (o : nat) (m : Msg) (label : option string) (r : Run H) : Run H :=
  mkRun ((o, m) :: delivered r) (option_list label ++ labels r)
        (final r) (ending r) (read_error r).

(** Modelled from the spec: the loop of [DFStreamMplex::run] as section
    4.3 has it: refill, select, deliver, and look at the stop request
    before the next round. [rounds] bounds the number of deliveries. *)
Fixpoint mplex_loop (rounds : nat) (slots : list Slot) (h : H) (failed : bool) : Run H :=
  match rounds with
  | 0 => mkRun [] [] h Unfinished failed
  | S rounds =>
      let '(live, err) := refill slots in
      let failed := failed || err in
      match select live with
      | None => mkRun [] [] h Exhausted failed
      | Some (o, m, live') =>
          match onMessage h o m with
          | Raised _ => mkRun [(o, m)] [] h Thrown failed
          | Returned h' true label =>
              after_delivery o m label (mkRun [] [] h' Stopped failed)
          | Returned h' false label =>
              after_delivery o m label (mplex_loop rounds live' h' failed)
          end
      end
  end.

(** The messages a working set still holds. *)
Definition slot_msgs (s : Slot) : list Msg := option_list (cached s) ++ pending (stream s).

Definition backlog (slots : list Slot) : list Msg := slots ≫= slot_msgs.

(** Modelled from the spec: [DFStreamMplex::run] on the streams that
    [DFStreamMplex::add] registered, in that order, every cache slot
    empty to begin with. Every round delivers a message, so one round
    more than there are messages is enough. *)
Definition mplex_run (streams : list Source) (h : H) : Run H :=
  let slots := (λ s, mkSlot s None) <$> streams in
  mplex_loop (S (length (backlog slots))) slots h false.

End Multiplexer.

(** Modelled from the spec: how [DFStreamMplex::run] reports to its caller.
    A read error does not end the merge; it is noted and raised when the
    loop is over, and an exception of the callback leaves [run] at once.
    Either way the caller's handler sees an exception. *)
Definition run_threw {H : Type} (r : Run H) : bool :=
  bool_decide (ending r = Thrown) || read_error r.

(** ** The driver *)

(** The values [boost::program_options] stores for [main]. *)
Record Options := mkOptions {
  inputs : list string;
  help : bool;
  no_output : bool;
  binary_dgram : bool;
  print_json : bool;
  print_names : bool;
  machine_mtypes : bool;
  count : bool;
  linear_only : bool;
  ignore_file_errors : bool;
  head_len : nat;
  tail_len : nat;
  trim_len : nat;
  start_tv_str : string;
  end_tv_str : string;
  output_filename : string;
  proto_file_str : string;
  compress_output : bool
}.

(** What a file or standard input holds: its records in file order, and
    whether reading past them meets a corrupt record instead of the end. *)
Record Stream := mkStream {
  records : list Msg;
  corrupt : bool
}.

(** What the program takes from the library and from its surroundings. *)
Record Env := mkEnv {
  (** [bb::timeval_t::earliest] and [bb::timeval_t::latest] *)
  earliest : Z;
  latest : Z;
  (** [bb::timeval_t::make_time] *)
  make_time : string → Z;
  (** [boost::lexical_cast<bb::ptime_duration_t>]; [None] when it throws *)
  duration_cast : string → option Z;
  (** what standard input holds. Every reader the program builds for an
      input that names standard input reads from this one stream of the
      process; the embedding hands each of them these records, which is
      what a run with one such input sees. *)
  stdin_stream : Stream;
  (** opening a data file, compressed or not; [None] when that throws *)
  open_file : string → bool → option Stream;
  (** [bb::CFile::exists] *)
  file_exists : string → bool;
  (** the stream [getOrigin] names when a message comes out of a
      [FixedDelayDFStream] wrapped around the stream with the given
      address *)
  origin_of_delayed : nat → nat
}.

Inductive ExitStatus := EXIT_SUCCESS | EXIT_FAILURE.

#[global] Instance ExitStatus_eq_dec : EqDecision ExitStatus.
Proof. solve_decision. Defined.

(** The stream built for one input. *)
Inductive Reader :=
  | StdinReader
  | SingleStream (filename : string) (isGz : bool)
  | SearchReader (filename : string) (isGz : bool) (start : Z).

#[global] Instance Reader_eq_dec : EqDecision Reader.
Proof. solve_decision. Defined.

(** What the process does that can be seen from outside, in order. *)
Inductive Event :=
  | Usage
  | Complaint (text : string)
  | LoadProto (file : string)
  | OpenedStream (r : Reader) (delay : option Z)
  | Warned (input : string)
  | CheckedExists (file : string)
  | CreatedFile (file : string)
  | RanMultiplexer
  | Counted (n : Z).

#[global] Instance Event_eq_dec : EqDecision Event.
Proof. solve_decision. Defined.

Record Outcome := mkOutcome {
  exit_status : ExitStatus;
  events : list Event;
  (** the messages the multiplexer handed to the callback *)
  consumed : list (nat * Msg);
  (** the transport at the end of the chain once the process is over;
      [None] when it was never built *)
  transport : option TerminalTransport
}.

(** [extract_fname]: the part before the first ['+'] is the file name, the
    part after it the delay; no ['+'], no delay. [None] when the cast of the
    delay throws. *)
Definition extract_fname (env : Env) (str : string) : option (string * Z) :=
  match String.index 0 "+" str with
  | Some pos =>
      let tmStr := String.substring (pos + 1) (String.length str - (pos + 1)) str in
      match duration_cast env tmStr with
      | Some delay => Some (String.substring 0 pos str, delay)
      | None => None
      end
  | None => Some (str, 0%Z)
  end.

(** [filename.substr(filename.length() - std::min(size_t(3), filename.length())) == ".gz"] *)
Definition is_gz (filename : string) : bool :=
  let n := String.length filename in
  bool_decide (String.substring (n - Nat.min 3 n) (Nat.min 3 n) filename = ".gz").

Record Opened := mkOpened {
  reader : Reader;
  delay_of : option Z;
  registered : Source;
  name_key : nat;
  name : string
}.

(** The body of the loop over the inputs, for the input at position [i],
    whose stream object is given the address [i]. [None] when an exception
    reaches the handler of the loop. *)
Definition open_input (env : Env) (o : Options) (start_tv : Z) (i : nat) (input : string) :
    option Opened :=
  '(filename, delay) ← extract_fname env input;
  let isGz := is_gz filename in
  df ← (if decide (filename = "-") then
          Some (StdinReader, stdin_stream env)
        else if bool_decide (start_tv = earliest env) || linear_only o then
          s ← open_file env filename isGz;
          Some (SingleStream filename isGz, s)
        else
          s ← open_file env filename isGz;
          Some (SearchReader filename isGz start_tv,
                mkStream (seek start_tv (records s)) (corrupt s)));
  let '(rd, s) := df in
  if decide (delay = 0%Z) then
    Some (mkOpened rd None (mkSource i (records s) (corrupt s)) i filename)
  else
    Some (mkOpened rd (Some delay)
            (mkSource (origin_of_delayed env i) (delay_msg delay <$> records s) (corrupt s))
            i filename).

(** The state the loop over the inputs builds up. *)
Record Opening := mkOpening {
  dfm : list Source;
  stream_names : gmap nat string;
  opening_log : list Event
}.

Fixpoint open_inputs (env : Env) (o : Options) (start_tv : Z) (i : nat) (l : list string)
    (acc : Opening) : Opening :=
  match l with
  | [] => acc
  | input :: rest =>
      let acc' :=
        match open_input env o start_tv i input with
        | Some op =>
            mkOpening (dfm acc ++ [registered op])
                      (if print_names o then <[name_key op := name op]> (stream_names acc)
                       else stream_names acc)
                      (opening_log acc ++ [OpenedStream (reader op) (delay_of op)])
        | None =>
            mkOpening (dfm acc) (stream_names acc) (opening_log acc ++ [Warned input])
        end in
      open_inputs env o start_tv (S i) rest acc'
  end.

Definition start_of (env : Env) (o : Options) : Z :=
  if decide (start_tv_str o = "") then earliest env else make_time env (start_tv_str o).

Definition end_of (env : Env) (o : Options) : Z :=
  if decide (end_tv_str o = "") then latest env else make_time env (end_tv_str o).

Definition terminal_of (o : Options) : TerminalTransport :=
  mkTerminal (if no_output o then DevNull
              else if binary_dgram o then DGramWrite
              else if print_json o then JsonWrite
              else TextWrite)
             (compress_output o) [].

Definition handler_of (env : Env) (o : Options) (names : gmap nat string) :
    MessageHandler OutChain :=
  let out := build_chain (terminal_of o) (tail_len o) (trim_len o) in
  let h := mkHandler None (head_len o) out 0%Z (start_of env o) (end_of env o) in
  if print_names o && negb (no_output o) && negb (binary_dgram o)
  then setStreamNames h names else h.

(** The loop over the inputs, from an empty multiplexer and no names. *)
Definition opened (env : Env) (o : Options) : Opening :=
  open_inputs env o (start_of env o) 0 (inputs o) (mkOpening [] ∅ []).

(** [dfm->run(&h)] on the streams the loop registered. *)
Definition merge_of (env : Env) (o : Options) : Run (MessageHandler OutChain) :=
  mplex_run (dfm (opened env o)) (handler_of env o (stream_names (opened env o))).

(** From the construction of the transports to the return: the merge, the
    count, the exit status, and the release of the chain on the way out. *)
Definition merge_and_exit (env : Env) (o : Options) (log : list Event) : Outcome :=
  let r := merge_of env o in
  let file_error := run_threw r in
  let log := log ++ [RanMultiplexer] ++
             (if count o then [Counted (m_messagesSeen (final r))] else []) in
  let file_error := if ignore_file_errors o then false else file_error in
  mkOutcome (if file_error then EXIT_FAILURE else EXIT_SUCCESS) log
            (delivered r) (Some (release (m_out (final r)))).

Definition rejected (log : list Event) : Outcome :=
  mkOutcome EXIT_FAILURE log [] None.

(** [main], from the parsed command line ([None] when the parser threw).
    The switch for numeric message types only changes how the transport
    prints a message and is left out. *)
Definition main (env : Env) (args : option Options) : Outcome :=
  match args with
  | None => rejected [Complaint "error"; Usage]
  | Some o =>
      if help o then mkOutcome EXIT_SUCCESS [Usage] [] None
      else
        let log := if decide (proto_file_str o = "") then []
                   else [LoadProto (proto_file_str o)] in
        let start_tv := start_of env o in
        let end_tv := end_of env o in
        if decide (end_tv ≤ start_tv)%Z then
          rejected (log ++ [Complaint "start_tv is after end_tv"; Usage])
        else if decide (inputs o = []) then
          rejected (log ++ [Usage])
        else
          let log := log ++ opening_log (opened env o) in
          if decide (output_filename o = "") then
            merge_and_exit env o log
          else if file_exists env (output_filename o) then
            rejected (log ++ [CheckedExists (output_filename o);
                              Complaint "error: output file exists"])
          else
            merge_and_exit env o
              (log ++ [CheckedExists (output_filename o); CreatedFile (output_filename o)])
  end.

(** ** Readings of the claims and sample data *)

(** Non-decreasing in ordering time. *)
Definition time_le (m1 m2 : Msg) : Prop := (time_sent m1 ≤ time_sent m2)%Z.

Definition time_ordered (l : list Msg) : Prop := Sorted time_le l.

(** The same Source with a clean end. *)
Definition heal (s : Source) : Source := mkSource (origin s) (pending s) false.

(** A consumer that never asks to stop and never throws. *)
Definition never_stops (H : Type) `{!IMStreamCallback H} : Prop :=
  ∀ (h : H) (o : nat) (m : Msg), ∃ h' label, onMessage h o m = Returned h' false label.

Section HandlerReading.
Context {T : Type} `{!ISendTransport T}.


(** The lookup of the origin's file name does not fail: names are not
    printed, or the origin has one. *)
Definition named (h : MessageHandler T) (origin : nat) : Prop :=
  match m_streamNames h with
  | Some names => is_Some (names !! origin)
  | None => True
  end.


End HandlerReading.

Definition msg (t : Z) (p : string) : Msg := mkMsg t 0 p.


(** A machine with three data files, of which "B" cannot be opened, one
    line on standard input, and an old output file. Delays are given in
    seconds, as in "info.20060501+1.0". *)
Definition demo_files (filename : string) (isGz : bool) : option Stream :=
  if decide (filename = "A") then
    Some (mkStream [msg 1 "a1"; msg 2 "a2"; msg 5 "a5"] false)
  else if decide (filename = "C") then
    Some (mkStream [msg 2 "c2"; msg 3 "c3"] false)
  else None.

Definition demo_cast (s : string) : option Z :=
  if decide (s = "1.0") then Some 1000000%Z
  else if decide (s = "0") then Some 0%Z
  else None.

Definition demo_time (s : string) : Z :=
  if decide (s = "2") then 2%Z else if decide (s = "5") then 5%Z else 0%Z.

Definition demo_env : Env :=
  mkEnv (-100)%Z 100%Z demo_time demo_cast (mkStream [msg 7 "s7"] false) demo_files
        (λ f, bool_decide (f = "old")) (λ i, i).

(** The machine of the scenario of section 8 of the spec: A = {1,2,5},
    B = {3,4}, C = {2}. *)
Definition scenario_files (filename : string) (isGz : bool) : option Stream :=
  if decide (filename = "A") then
    Some (mkStream [msg 1 "a1"; msg 2 "a2"; msg 5 "a5"] false)
  else if decide (filename = "B") then
    Some (mkStream [msg 3 "b3"; msg 4 "b4"] false)
  else if decide (filename = "C") then
    Some (mkStream [msg 2 "c2"] false)
  else None.

Definition scenario_env : Env :=
  mkEnv (-100)%Z 100%Z demo_time demo_cast (mkStream [] false) scenario_files
        (λ f, false) (λ i, i).

(** [bbreader] with no option set. *)
Definition bare_options (inputs : list string) : Options :=
  mkOptions inputs false false false false false false false false false 0 0 0 "" "" "" "" false.

Definition with_help (o : Options) : Options :=
  mkOptions (inputs o) true (no_output o) (binary_dgram o) (print_json o) (print_names o)
            (machine_mtypes o) (count o) (linear_only o) (ignore_file_errors o)
            (head_len o) (tail_len o) (trim_len o) (start_tv_str o) (end_tv_str o)
            (output_filename o) (proto_file_str o) (compress_output o).

Definition with_range (start_str end_str : string) (o : Options) : Options :=
  mkOptions (inputs o) (help o) (no_output o) (binary_dgram o) (print_json o) (print_names o)
            (machine_mtypes o) (count o) (linear_only o) (ignore_file_errors o)
            (head_len o) (tail_len o) (trim_len o) start_str end_str
            (output_filename o) (proto_file_str o) (compress_output o).

Definition with_output (file : string) (o : Options) : Options :=
  mkOptions (inputs o) (help o) (no_output o) (binary_dgram o) (print_json o) (print_names o)
            (machine_mtypes o) (count o) (linear_only o) (ignore_file_errors o)
            (head_len o) (tail_len o) (trim_len o) (start_tv_str o) (end_tv_str o)
            file (proto_file_str o) (compress_output o).

Definition with_proto (file : string) (o : Options) : Options :=
  mkOptions (inputs o) (help o) (no_output o) (binary_dgram o) (print_json o) (print_names o)
            (machine_mtypes o) (count o) (linear_only o) (ignore_file_errors o)
            (head_len o) (tail_len o) (trim_len o) (start_tv_str o) (end_tv_str o)
            (output_filename o) file (compress_output o).

Definition with_ignore_file_errors (o : Options) : Options :=
  mkOptions (inputs o) (help o) (no_output o) (binary_dgram o) (print_json o) (print_names o)
            (machine_mtypes o) (count o) (linear_only o) true
            (head_len o) (tail_len o) (trim_len o) (start_tv_str o) (end_tv_str o)
            (output_filename o) (proto_file_str o) (compress_output o).

(** The invocation gets as far as the merge. *)
Definition reaches_merge (env : Env) (o : Options) : Prop :=
  help o = false
  ∧ (start_of env o < end_of env o)%Z
  ∧ inputs o ≠ []
  ∧ (output_filename o = "" ∨ file_exists env (output_filename o) = false).

(** Every input opens: none meets an exception in the loop over the
    inputs. *)
Definition inputs_open (env : Env) (o : Options) : Prop :=
  Forall (λ input, is_Some (open_input env o (start_of env o) 0 input)) (inputs o).

(** A machine whose file "A" has a corrupt record after its second one. *)
Definition worn_files (filename : string) (isGz : bool) : option Stream :=
  if decide (filename = "A") then
    Some (mkStream [msg 1 "a1"; msg 2 "a2"] true)
  else if decide (filename = "C") then
    Some (mkStream [msg 2 "c2"; msg 3 "c3"] false)
  else None.

Definition worn_env : Env :=
  mkEnv (-100)%Z 100%Z demo_time demo_cast (mkStream [] false) worn_files
        (λ f, false) (λ i, i).

(** What [main] has logged when it looks for the output file: the
    protobuf definition file, if one was named, and the loop over the
    inputs. *)
Definition log_before_output (env : Env) (o : Options) : list Event :=
  (if decide (proto_file_str o = "") then [] else [LoadProto (proto_file_str o)])
  ++ opening_log (opened env o).

(** The events that are not the run of the multiplexer and not the opening
    of a file for writing. *)
Definition before_merge (e : Event) : Prop :=
  match e with
  | RanMultiplexer | CreatedFile _ => False
  | _ => True
  end.

(** The events of the loop over the inputs. *)
Definition opening_event (e : Event) : Prop :=
  match e with
  | OpenedStream _ _ | Warned _ => True
  | _ => False
  end.

(** Every live slot holds a peeked message. *)
Definition all_cached (slots : list Slot) : Prop :=
  Forall (λ s, is_Some (cached s)) slots.

(** What each slot still holds is sorted by ordering time. *)
Definition slots_ordered (slots : list Slot) : Prop :=
  Forall (λ s, StronglySorted time_le (slot_msgs s)) slots.

(** Some Source of the working set ends in a read error. *)
Definition has_fault (slots : list Slot) : Prop :=
  Exists (λ s, faulty (stream s) = true) slots.

(** Two slots that differ at most in whether their Sources end in a read
    error. *)
Definition same_data (s s' : Slot) : Prop :=
  cached s = cached s'
  ∧ origin (stream s) = origin (stream s')
  ∧ pending (stream s) = pending (stream s').

(** Every file of the machine, and its standard input, is sorted by
    ordering time. *)
Definition sorted_inputs (env : Env) : Prop :=
  time_ordered (records (stdin_stream env))
  ∧ ∀ filename isGz s, open_file env filename isGz = Some s → time_ordered (records s).

Definition demo_stream : list Msg :=
  [msg 1 "a"; msg 2 "b"; msg 3 "c"; msg 4 "d"; msg 5 "e"].

Definition source_A : Source := mkSource 0 [msg 1 "a1"; msg 2 "a2"; msg 5 "a5"] false.
Definition source_B : Source := mkSource 1 [msg 3 "b3"; msg 4 "b4"] false.
Definition source_C : Source := mkSource 2 [msg 2 "c2"] false.
Definition source_B_corrupt : Source := mkSource 1 [msg 3 "b3"; msg 4 "b4"] true.

Definition plain_handler : MessageHandler TerminalTransport :=
  mkHandler None 0 (mkTerminal TextWrite false []) 0 0 100.

(** ** Readings of the further properties *)

(** What a chain built with the given tail and trim lengths lets through
    of a stream, once it is released: all but the last [trim_len]
    messages, and of those the last [tail_len] when a tail is asked for. *)
Definition window (tail_len trim_len : nat) (l : list Msg) : list Msg :=
  let kept := take (length l - trim_len) l in
  if decide (0 < tail_len) then drop (length kept - tail_len) kept else kept.

(** The messages of a run the callback returned from without asking to
    stop: all that were delivered, but for the last one when the run was
    stopped or the callback threw. *)
Definition passed {H : Type} (r : Run H) : list Msg :=
  if decide (ending r = Stopped ∨ ending r = Thrown)
  then take (length (delivered r) - 1) (delivered r).*2
  else (delivered r).*2.

(** The messages among those that are not before the start time. *)
Definition from_start (start : Z) (l : list Msg) : list Msg :=
  filter (λ m, (start ≤ time_sent m)%Z) l.

(** What the transport at the end of the chain has received when the
    process is over; nothing when it was never built. *)
Definition written (out : Outcome) : list Msg :=
  match transport out with
  | Some t => received t
  | None => []
  end.

(** The messages the handler of [main] forwards to its chain in the run. *)
Definition forwarded (env : Env) (o : Options) : list Msg :=
  from_start (start_of env o) (passed (merge_of env o)).

(** The events that are not the report of the count. *)
Definition uncounted (e : Event) : Prop :=
  match e with
  | Counted _ => False
  | _ => True
  end.

(** File names are printed before the messages. *)
Definition names_printed (o : Options) : bool :=
  print_names o && negb (no_output o) && negb (binary_dgram o).

(** The input carries no delay: no ['+'], or a delay of zero after it. *)
Definition undelayed (env : Env) (input : string) : Prop :=
  ∀ filename delay, extract_fname env input = Some (filename, delay) → delay = 0%Z.

(** The multiplexer gives as the origin of the messages of the input the
    stream [main] puts on record for it: the input carries no delay, or
    the stream that delays it passes on the origin of the stream it is
    wrapped around. *)
Definition origin_kept (env : Env) (input : string) : Prop :=
  undelayed env input ∨ ∀ i, origin_of_delayed env i = i.



(** The file name part of the input at a place among the inputs, when that
    input opens. *)
Definition input_name (env : Env) (o : Options) (j : nat) : option string :=
  input ← inputs o !! j;
  _ ← open_input env o (start_of env o) j input;
  fst <$> extract_fname env input.

(** What the loop over the inputs reports for one input. *)
Definition input_event (env : Env) (o : Options) (input : string) : Event :=
  match open_input env o (start_of env o) 0 input with
  | Some op => OpenedStream (reader op) (delay_of op)
  | None => Warned input
  end.

(** The options with other inputs. *)
Definition with_inputs (l : list string) (o : Options) : Options :=
  mkOptions l (help o) (no_output o) (binary_dgram o) (print_json o) (print_names o)
            (machine_mtypes o) (count o) (linear_only o) (ignore_file_errors o)
            (head_len o) (tail_len o) (trim_len o) (start_tv_str o) (end_tv_str o)
            (output_filename o) (proto_file_str o) (compress_output o).

(** Two Sources that yield the same, whatever stream they are. *)
Definition same_stream (s s' : Source) : Prop :=
  pending s = pending s' ∧ faulty s = faulty s'.

(** Two slots that hold the same, whatever streams they belong to. *)
Definition same_slot (s s' : Slot) : Prop :=
  cached s = cached s' ∧ same_stream (stream s) (stream s').

(** Why a handler asks to stop at a message: the head length is reached,
    or the message is not before the end time. *)
Definition stop_reason {T : Type} (h : MessageHandler T) (m : Msg) : Prop :=
  (0 < m_headLen h ∧ (Z.of_nat (m_headLen h) ≤ m_messagesSeen h)%Z)
  ∨ (m_endTv h ≤ time_sent m)%Z.

(** [bbreader -N] on the three files of the demo machine. *)
Definition naming_options : Options :=
  mkOptions ["A"; "B"; "C"] false false false false true false false false false
            0 0 0 "" "" "" "" false.

(** [bbreader -n -h head] on the three files of the demo machine. *)
Definition counting_options (head : nat) : Options :=
  mkOptions ["A"; "B"; "C"] false false false false false false true false false
            head 0 0 "" "" "" "" false.

(** * Proofs *)

(** ** The window buffers *)

Section WindowFacts.
Context {Out : Type} `{!ISendTransport Out}.

Lemma tailed_while_drop (num : nat) (buf : list Msg) :
  tailed_while num buf = drop (length buf - num) buf.
Proof.
  induction buf as [|front rest IH]; [done|].
  cbn [tailed_while]. case_decide as Hlen; cbn [length] in *.
  - rewrite IH. replace (S (length rest) - num) with (S (length rest - num)) by lia. done.
  - replace (S (length rest) - num) with 0 by lia. done.
Qed.

Lemma trimmed_while_take_drop (num : nat) (buf : list Msg) (out : Out) :
  trimmed_while num buf out
  = (foldl send out (take (length buf - num) buf), drop (length buf - num) buf).
Proof.
  revert out. induction buf as [|front rest IH]; intros out; [done|].
  cbn [trimmed_while]. case_decide as Hlen; cbn [length] in *.
  - rewrite IH. replace (S (length rest) - num) with (S (length rest - num)) by lia. done.
  - replace (S (length rest) - num) with 0 by lia. done.
Qed.

(** The state of a [TailedOutput] after a run of [send]s, when its buffer
    was within its bound to begin with. *)
Lemma tailed_sends (out : Out) (num : nat) (buf sent : list Msg) :
  length buf ≤ num →
  foldl send (mkTailed out num buf) sent
  = mkTailed out num (drop (length (buf ++ sent) - num) (buf ++ sent)).
Proof.
  intros Hbuf. induction sent as [|m sent IH] using rev_ind.
  - rewrite app_nil_r. replace (length buf - num) with 0 by lia. done.
  - rewrite foldl_snoc, IH. cbn. unfold tailed_send, clone. cbn.
    rewrite tailed_while_drop. f_equal.
    rewrite (assoc_L (++)). set (l := buf ++ sent).
    rewrite !length_app, length_drop. cbn [length].
    destruct (decide (length l ≤ num)) as [Hle|Hgt].
    + replace (length l - num) with 0 by lia. rewrite drop_0, Nat.sub_0_r. done.
    + rewrite <-drop_app_le by lia. rewrite drop_drop. f_equal. lia.
Qed.

Lemma trimmed_sends (out : Out) (num : nat) (buf sent : list Msg) :
  length buf ≤ num →
  foldl send (mkTrimmed out num buf) sent
  = mkTrimmed (foldl send out (take (length (buf ++ sent) - num) (buf ++ sent))) num
              (drop (length (buf ++ sent) - num) (buf ++ sent)).
Proof.
  intros Hbuf. induction sent as [|m sent IH] using rev_ind.
  - rewrite app_nil_r. replace (length buf - num) with 0 by lia. done.
  - rewrite foldl_snoc, IH. cbn. unfold trimmed_send, clone. cbn.
    rewrite trimmed_while_take_drop.
    rewrite (assoc_L (++) buf). set (l := buf ++ sent).
    rewrite !length_app, length_drop. cbn [length].
    destruct (decide (length l ≤ num)) as [Hle|Hgt].
    + replace (length l - num) with 0 by lia. rewrite drop_0, Nat.sub_0_r. done.
    + replace (length l - (length l - num) + 1 - num) with 1 by lia.
      replace (length l + 1 - num) with (length l - num + 1) by lia.
      rewrite <-drop_app_le by lia. rewrite drop_drop. f_equal.
      rewrite <-foldl_app. f_equal.
      rewrite <-(take_app_le l [m] (length l - num)) by lia.
      apply take_take_drop.
Qed.

End WindowFacts.

Lemma terminal_sends (t : TerminalTransport) (l : list Msg) :
  foldl send t l = mkTerminal (encoding t) (compressed t) (received t ++ l).
Proof.
  revert t. induction l as [|m l IH]; intros t; cbn [foldl].
  - rewrite app_nil_r. by destruct t.
  - rewrite IH. cbn. by rewrite <-(assoc_L (++)).
Qed.

Lemma chain_sends_trimmed_tailed (t : TrimmedOutput (TailedOutput TerminalTransport))
    (l : list Msg) :
  foldl send (TrimmedTailed t) l = TrimmedTailed (foldl send t l).
Proof. revert t. induction l as [|m l IH]; intros t; [done|]. cbn [foldl]. by rewrite <-IH. Qed.

Lemma positions_window (K T M : nat) (l : list Msg) :
  length l = K →
  positions (Z.max 0 (Z.of_nat K - Z.of_nat T - Z.of_nat M)) (Z.of_nat K - Z.of_nat T) l
  = drop (K - T - M) (take (K - T) l).
Proof.
  intros HK. unfold positions.
  replace (Z.to_nat (Z.max 0 (Z.of_nat K - Z.of_nat T - Z.of_nat M))) with (K - T - M) by lia.
  replace (Z.to_nat (Z.of_nat K - Z.of_nat T)) with (K - T) by lia.
  rewrite take_drop_commute. do 2 f_equal. lia.
Qed.

(** C2: a stream of K messages sent through TrimmedOutput(T) around
    TailedOutput(M) around the terminal transport leaves the terminal
    transport, once the chain is released, with exactly the messages at
    positions [max(0, K-T-M), K-T) of the stream, in order, after what it
    had received before; with nothing new when K <= T. *)
Theorem C2_trim_then_tail (term : TerminalTransport) (T M : nat) (stream : list Msg) :
  0 < T → 0 < M →
  let K := Z.of_nat (length stream) in
  let chain := build_chain term M T in
  received (release (foldl send chain stream))
  = received term
    ++ positions (Z.max 0 (K - Z.of_nat T - Z.of_nat M)) (K - Z.of_nat T) stream
  ∧ (length stream ≤ T → received (release (foldl send chain stream)) = received term).
Proof.
  intros HT HM K chain.
  assert (received (release (foldl send chain stream))
          = received term ++ drop (length stream - T - M) (take (length stream - T) stream))
    as Hout.
  { unfold chain, build_chain. rewrite !decide_True by done.
    rewrite chain_sends_trimmed_tailed. cbn [release OutChain_send].
    rewrite trimmed_sends by (cbn; lia). cbn [app release TrimmedOutput_send].
    unfold trimmed_release. cbn [trimmed_out].
    rewrite tailed_sends by (cbn; lia). cbn [app release TailedOutput_send].
    unfold tailed_release. cbn [tailed_out tailed_buf].
    rewrite terminal_sends. cbn [release TerminalTransport_send received].
    f_equal. f_equal. rewrite length_take. lia. }
  split.
  - rewrite Hout. subst K. by rewrite positions_window.
  - intros HK. rewrite Hout.
    replace (length stream - T) with 0 by lia. cbn. by rewrite app_nil_r.
Qed.

Lemma C2_trim_then_tail_witness :
  received (release (foldl send (build_chain (mkTerminal TextWrite false []) 2 1) demo_stream))
  = [msg 3 "c"; msg 4 "d"].
Proof.
  pose proof (C2_trim_then_tail (mkTerminal TextWrite false []) 1 2 demo_stream
                ltac:(lia) ltac:(lia)) as [Hw _].
  exact Hw.
Defined.

(** C8: whatever is sent to a TailedOutput or a TrimmedOutput built with
    capacity N, once a send has returned the buffer holds at most N
    messages, and they are the most recent ones in the order they were
    sent. *)
Theorem C8_window_buffer_bounded (Out : Type) (I : ISendTransport Out)
    (out : Out) (N : nat) (sent : list Msg) :
  let tailed := foldl send (mkTailed out N []) sent in
  let trimmed := foldl send (mkTrimmed out N []) sent in
  (length (tailed_buf tailed) ≤ N ∧ tailed_buf tailed = drop (length sent - N) sent)
  ∧ (length (trimmed_buf trimmed) ≤ N ∧ trimmed_buf trimmed = drop (length sent - N) sent).
Proof.
  cbn zeta. rewrite tailed_sends, trimmed_sends by (cbn; lia).
  cbn [app tailed_buf trimmed_buf]. rewrite length_drop. repeat split; lia.
Qed.

#[global] Instance time_le_trans : Transitive time_le.
Proof. unfold time_le. intros x y z. lia. Qed.

(** ** The working set of the multiplexer *)

Lemma backlog_cons (s : Slot) (slots : list Slot) :
  backlog (s :: slots) = slot_msgs s ++ backlog slots.
Proof. done. Qed.

(** One step into [refill]: name what it makes of the rest of the slots. *)
Ltac refill_head rest IH :=
  cbn [refill]; destruct (refill rest) as [live failed]; cbn [fst] in IH.

Lemma refill_backlog (slots : list Slot) : backlog (refill slots).1 = backlog slots.
Proof.
  induction slots as [|[[o p f] c] rest IH]; [done|].
  refill_head rest IH.
  rewrite backlog_cons, <-IH. destruct c as [m|]; [done|].
  destruct p as [|m p]; [by destruct f|done].
Qed.

Lemma refill_cached (slots : list Slot) : all_cached (refill slots).1.
Proof.
  induction slots as [|[[o p f] c] rest IH]; [by constructor|].
  refill_head rest IH.
  destruct c as [m|]; [by constructor|].
  destruct p as [|m p]; [by destruct f|by constructor].
Qed.

Lemma refill_slot_msgs (P : list Msg → Prop) (slots : list Slot) :
  Forall (λ s, P (slot_msgs s)) slots → Forall (λ s, P (slot_msgs s)) (refill slots).1.
Proof.
  induction slots as [|[[o p f] c] rest IH]; [done|].
  intros [Hs Hrest]%Forall_cons. specialize (IH Hrest).
  refill_head rest IH.
  destruct c as [m|]; [by constructor|].
  destruct p as [|m p]; [by destruct f|by constructor].
Qed.

Lemma select_none (slots : list Slot) :
  all_cached slots → select slots = None → slots = [].
Proof.
  destruct slots as [|s rest]; [done|].
  intros [[m Hm] _]%Forall_cons. cbn [select]. rewrite Hm.
  destruct (select rest) as [[[o' m'] rest']|]; [case_decide|]; done.
Qed.

Lemma select_backlog (slots : list Slot) o m slots' :
  all_cached slots →
  select slots = Some (o, m, slots') →
  backlog slots ≡ₚ m :: backlog slots'.
Proof.
  revert o m slots'. induction slots as [|s rest IH]; intros o m slots'; [done|].
  intros [[m0 Hm0] Hcached]%Forall_cons. cbn [select]. rewrite Hm0.
  assert (slot_msgs s = m0 :: pending (stream s)) as Hmsgs
    by (unfold slot_msgs; by rewrite Hm0).
  destruct (select rest) as [[[o' m'] rest']|] eqn:Hsel.
  - case_decide; intros [= <- <- <-]; rewrite !backlog_cons.
    + rewrite (IH o' m' rest' Hcached eq_refl). by rewrite Permutation_middle.
    + by rewrite Hmsgs.
  - intros [= <- <- <-]. rewrite !backlog_cons. by rewrite Hmsgs.
Qed.

Lemma select_some (slots : list Slot) o m slots' :
  all_cached slots → slots_ordered slots →
  select slots = Some (o, m, slots') →
  slots_ordered slots' ∧ Forall (time_le m) (backlog slots').
Proof.
  revert o m slots'. induction slots as [|s rest IH]; intros o m slots'; [done|].
  intros [[m0 Hm0] Hcached]%Forall_cons [Hs Hrest]%Forall_cons.
  cbn [select]. rewrite Hm0.
  assert (slot_msgs s = m0 :: pending (stream s)) as Hmsgs
    by (unfold slot_msgs; by rewrite Hm0).
  rewrite Hmsgs in Hs. apply StronglySorted_inv in Hs as [Htail Hhead].
  destruct (select rest) as [[[o' m'] rest']|] eqn:Hsel.
  - destruct (IH o' m' rest' Hcached Hrest eq_refl) as (Hord & Hmin).
    pose proof (select_backlog rest o' m' rest' Hcached Hsel) as Hperm.
    case_decide as Hlt; intros [= <- <- <-]; rewrite backlog_cons.
    + split.
      * constructor; [|done]. rewrite Hmsgs. by constructor.
      * rewrite Hmsgs, Forall_app, Forall_cons. split_and!; [| |done].
        -- unfold time_le. lia.
        -- eapply Forall_impl; [exact Hhead|]. unfold time_le. intros x. lia.
    + split; [by constructor|].
      rewrite Forall_app. split; [done|]. rewrite Hperm, Forall_cons. split.
      * unfold time_le. lia.
      * eapply Forall_impl; [exact Hmin|]. unfold time_le. intros x. lia.
  - intros [= <- <- <-]. apply select_none in Hsel as ->; [|done].
    rewrite backlog_cons. split; [by constructor|].
    rewrite Forall_app. by split.
Qed.

Lemma refill_fault (slots : list Slot) :
  has_fault slots → (refill slots).2 = true ∨ has_fault (refill slots).1.
Proof.
  unfold has_fault. induction slots as [|[[o p f] c] rest IH]; intros Hex.
  { by apply Exists_nil in Hex. }
  cbn [refill]. destruct (refill rest) as [live failed]. cbn [fst snd] in *.
  apply Exists_cons in Hex as [Hs|Hrest].
  - cbn in Hs. subst f. destruct c as [m|]; [right; by left|].
    destruct p as [|m p]; [by left|right; by left].
  - destruct (IH Hrest) as [->|Hlive].
    + left. destruct c as [m|]; [done|]. destruct p as [|m p]; [by destruct f|done].
    + destruct c as [m|]; [right; by right|].
      destruct p as [|m p]; [destruct f; [by left|by right]|right; by right].
Qed.

Lemma select_streams (slots : list Slot) o m slots' :
  select slots = Some (o, m, slots') → stream <$> slots' = stream <$> slots.
Proof.
  revert o m slots'. induction slots as [|s rest IH]; intros o m slots'; [done|].
  cbn [select].
  destruct (cached s) as [m0|], (select rest) as [[[o' m'] rest']|];
    try case_decide; intros [= <- <- <-]; cbn; try done; f_equal; by eapply IH.
Qed.

Lemma select_fault (slots : list Slot) o m slots' :
  select slots = Some (o, m, slots') → has_fault slots → has_fault slots'.
Proof.
  intros Hsel%select_streams. unfold has_fault. intros Hex.
  apply (Exists_fmap stream (λ s, faulty s = true)).
  rewrite Hsel. by apply (Exists_fmap stream (λ s, faulty s = true)).
Qed.

Lemma refill_same (l l' : list Slot) :
  Forall2 same_data l l' → Forall2 same_data (refill l).1 (refill l').1.
Proof.
  induction 1 as [|[[o p f] c] [[o' p' f'] c'] l l' (Hc & Ho & Hp) _ IH]; [done|].
  cbn in Hc, Ho, Hp. subst c' o' p'. cbn [refill].
  destruct (refill l) as [live failed], (refill l') as [live' failed']. cbn [fst] in IH.
  destruct c as [m|]; [by constructor|].
  destruct p as [|m p]; [by destruct f, f'|by constructor].
Qed.

Lemma select_same (l l' : list Slot) :
  Forall2 same_data l l' →
  match select l, select l' with
  | Some (o, m, r), Some (o', m', r') => o = o' ∧ m = m' ∧ Forall2 same_data r r'
  | None, None => True
  | _, _ => False
  end.
Proof.
  induction 1 as [|s s' l l' Hs Hl IH]; [done|].
  pose proof Hs as (Hc & Ho & Hp).
  cbn [select]. rewrite <-Hc, <-Ho.
  destruct (select l) as [[[o1 m1] r1]|], (select l') as [[[o2 m2] r2]|]; try done.
  - destruct IH as (<- & <- & Hr).
    destruct (cached s) as [m0|].
    + case_decide; split_and!; try done; by constructor.
    + split_and!; try done. by constructor.
  - destruct (cached s) as [m0|]; [|done].
    split_and!; try done. by constructor.
Qed.

Lemma same_data_backlog (l l' : list Slot) :
  Forall2 same_data l l' → backlog l = backlog l'.
Proof.
  induction 1 as [|s s' l l' (Hc & Ho & Hp) _ IH]; [done|].
  rewrite !backlog_cons, IH. unfold slot_msgs. by rewrite Hc, Hp.
Qed.

Section MultiplexerFacts.
Context {H : Type} `{!IMStreamCallback H}.

(** The loop hands out messages of the working set only, each at most
    once. *)
Lemma mplex_loop_delivers (rounds : nat) (slots : list Slot) (h : H) (failed : bool) :
  (delivered (mplex_loop rounds slots h failed)).*2 ⊆+ backlog slots.
Proof.
  revert slots h failed. induction rounds as [|rounds IH]; intros slots h failed.
  { apply submseteq_nil_l. }
  cbn [mplex_loop]. rewrite <-(refill_backlog slots).
  pose proof (refill_cached slots) as Hcached.
  destruct (refill slots) as [live err]. cbn [fst] in *.
  destruct (select live) as [[[o m] live']|] eqn:Hsel; [|apply submseteq_nil_l].
  rewrite (select_backlog live o m live' Hcached Hsel).
  destruct (onMessage h o m) as [what|h' [|] label]; cbn.
  - apply submseteq_skip, submseteq_nil_l.
  - apply submseteq_skip, submseteq_nil_l.
  - apply submseteq_skip, IH.
Qed.

(** Sources sorted, output sorted. *)
Lemma mplex_loop_ordered (rounds : nat) (slots : list Slot) (h : H) (failed : bool) :
  slots_ordered slots →
  StronglySorted time_le (delivered (mplex_loop rounds slots h failed)).*2.
Proof.
  revert slots h failed. induction rounds as [|rounds IH]; intros slots h failed Hord.
  { constructor. }
  cbn [mplex_loop].
  pose proof (refill_cached slots) as Hcached.
  pose proof (refill_slot_msgs _ slots Hord) as Hlive.
  destruct (refill slots) as [live err]. cbn [fst] in *.
  destruct (select live) as [[[o m] live']|] eqn:Hsel; [|constructor].
  destruct (select_some live o m live' Hcached Hlive Hsel) as (Hord' & Hmin).
  destruct (onMessage h o m) as [what|h' [|] label]; cbn.
  - repeat constructor.
  - repeat constructor.
  - constructor; [by apply IH|].
    rewrite Forall_forall. intros x Hx. rewrite Forall_forall in Hmin. apply Hmin.
    eapply elem_of_submseteq; [exact Hx|apply mplex_loop_delivers].
Qed.

(** Enough rounds: the loop runs to its end. *)
Lemma mplex_loop_finishes (rounds : nat) (slots : list Slot) (h : H) (failed : bool) :
  length (backlog slots) < rounds →
  ending (mplex_loop rounds slots h failed) ≠ Unfinished.
Proof.
  revert slots h failed. induction rounds as [|rounds IH]; intros slots h failed Hlen; [lia|].
  cbn [mplex_loop]. rewrite <-(refill_backlog slots) in Hlen.
  pose proof (refill_cached slots) as Hcached.
  destruct (refill slots) as [live err]. cbn [fst] in *.
  destruct (select live) as [[[o m] live']|] eqn:Hsel; [|done].
  apply (select_backlog live o m live' Hcached) in Hsel.
  apply Permutation_length in Hsel. cbn [length] in Hsel.
  destruct (onMessage h o m) as [what|h' [|] label]; cbn; [done|done|].
  apply IH. lia.
Qed.

(** A run that ends because the live set is empty has handed out
    everything. *)
Lemma mplex_loop_exhausted (rounds : nat) (slots : list Slot) (h : H) (failed : bool) :
  ending (mplex_loop rounds slots h failed) = Exhausted →
  (delivered (mplex_loop rounds slots h failed)).*2 ≡ₚ backlog slots.
Proof.
  revert slots h failed. induction rounds as [|rounds IH]; intros slots h failed; [done|].
  cbn [mplex_loop]. rewrite <-(refill_backlog slots).
  pose proof (refill_cached slots) as Hcached.
  destruct (refill slots) as [live err]. cbn [fst] in *.
  destruct (select live) as [[[o m] live']|] eqn:Hsel.
  - rewrite (select_backlog live o m live' Hcached Hsel).
    destruct (onMessage h o m) as [what|h' [|] label]; cbn; [done|done|].
    intros Hend. by rewrite IH.
  - intros _. by rewrite (select_none live Hcached Hsel).
Qed.

Lemma mplex_loop_failed (rounds : nat) (slots : list Slot) (h : H) :
  read_error (mplex_loop rounds slots h true) = true.
Proof.
  revert slots h. induction rounds as [|rounds IH]; intros slots h; [done|].
  cbn [mplex_loop]. destruct (refill slots) as [live err]. cbn [orb].
  destruct (select live) as [[[o m] live']|]; [|done].
  destruct (onMessage h o m) as [what|h' [|] label]; cbn; [done|done|apply IH].
Qed.

Lemma mplex_loop_flags_fault (rounds : nat) (slots : list Slot) (h : H) (failed : bool) :
  has_fault slots →
  ending (mplex_loop rounds slots h failed) = Exhausted →
  read_error (mplex_loop rounds slots h failed) = true.
Proof.
  revert slots h failed. induction rounds as [|rounds IH]; intros slots h failed; [done|].
  intros Hfault. cbn [mplex_loop].
  pose proof (refill_cached slots) as Hcached.
  apply refill_fault in Hfault.
  destruct (refill slots) as [live err]. cbn [fst snd] in *.
  destruct Hfault as [->|Hfault].
  { rewrite orb_true_r.
    destruct (select live) as [[[o m] live']|]; [|done].
    destruct (onMessage h o m) as [what|h' [|] label]; cbn; [done|done|].
    intros _. apply mplex_loop_failed. }
  destruct (select live) as [[[o m] live']|] eqn:Hsel.
  - destruct (onMessage h o m) as [what|h' [|] label]; cbn; [done|done|].
    apply IH. by eapply select_fault.
  - apply (select_none live Hcached) in Hsel as ->. by apply Exists_nil in Hfault.
Qed.

(** The run does not depend on which Sources end in a read error, the
    note of the error apart. *)
Lemma mplex_loop_same (rounds : nat) (l l' : list Slot) (h : H) (failed failed' : bool) :
  Forall2 same_data l l' →
  let r := mplex_loop rounds l h failed in
  let r' := mplex_loop rounds l' h failed' in
  delivered r = delivered r' ∧ labels r = labels r'
  ∧ final r = final r' ∧ ending r = ending r'.
Proof.
  revert l l' h failed failed'.
  induction rounds as [|rounds IH]; intros l l' h failed failed' Hsame; [done|].
  cbn [mplex_loop].
  apply refill_same in Hsame.
  destruct (refill l) as [live err], (refill l') as [live' err']. cbn [fst] in Hsame.
  apply select_same in Hsame.
  destruct (select live) as [[[o m] r]|], (select live') as [[[o' m'] r']|]; try done.
  destruct Hsame as (<- & <- & Hsame).
  destruct (onMessage h o m) as [what|h' [|] label]; cbn; [done|done|].
  destruct (IH r r' h' (failed || err) (failed' || err') Hsame) as (-> & -> & -> & ->).
  done.
Qed.

End MultiplexerFacts.

Lemma backlog_fresh (streams : list Source) :
  backlog ((λ s, mkSlot s None) <$> streams) = streams ≫= pending.
Proof. induction streams as [|s l IH]; [done|]. cbn. by rewrite <-IH. Qed.

Lemma fresh_slots_ordered (streams : list Source) :
  Forall (λ s, time_ordered (pending s)) streams →
  slots_ordered ((λ s, mkSlot s None) <$> streams).
Proof.
  unfold slots_ordered. rewrite Forall_fmap. intros Hall.
  eapply Forall_impl; [exact Hall|].
  intros s Hs. unfold compose, slot_msgs. cbn.
  apply Sorted_StronglySorted; [apply _|exact Hs].
Qed.

Lemma mplex_run_finishes (H : Type) `{!IMStreamCallback H} (streams : list Source) (h : H) :
  ending (mplex_run streams h) ≠ Unfinished.
Proof. unfold mplex_run. apply mplex_loop_finishes. lia. Qed.

Lemma mplex_loop_never_stops (H : Type) `{!IMStreamCallback H}
    (rounds : nat) (slots : list Slot) (h : H) (failed : bool) :
  never_stops H →
  ending (mplex_loop rounds slots h failed) = Exhausted
  ∨ ending (mplex_loop rounds slots h failed) = Unfinished.
Proof.
  intros Hgo. revert slots h failed.
  induction rounds as [|rounds IH]; intros slots h failed; [by right|].
  cbn [mplex_loop]. destruct (refill slots) as [live err].
  destruct (select live) as [[[o m] live']|]; [|by left].
  destruct (Hgo h o m) as (h' & label & ->). cbn. apply IH.
Qed.

Lemma mplex_run_ordered (H : Type) `{!IMStreamCallback H} (streams : list Source) (h : H) :
  Forall (λ s, time_ordered (pending s)) streams →
  time_ordered (delivered (mplex_run streams h)).*2.
Proof.
  intros Hsorted.
  apply StronglySorted_Sorted, mplex_loop_ordered. by apply fresh_slots_ordered.
Qed.

(** C1: whatever the Sources hold, if each of them is sorted by ordering
    time then the messages the multiplexer hands to the callback, in the
    order it hands them over, are non-decreasing in ordering time; and the
    run comes to its end. *)
Theorem C1_mplex_output_ordered (H : Type) (I : IMStreamCallback H)
    (streams : list Source) (h : H) :
  Forall (λ s, time_ordered (pending s)) streams →
  time_ordered (delivered (mplex_run streams h)).*2
  ∧ ending (mplex_run streams h) ≠ Unfinished.
Proof.
  intros Hsorted. split; [by apply mplex_run_ordered|apply mplex_run_finishes].
Qed.

Lemma C1_mplex_output_ordered_witness :
  time_ordered (delivered (mplex_run [source_A; source_B; source_C] plain_handler)).*2
  ∧ ending (mplex_run [source_A; source_B; source_C] plain_handler) ≠ Unfinished.
Proof.
  apply (C1_mplex_output_ordered _ _ [source_A; source_B; source_C] plain_handler).
  repeat constructor; unfold time_le; cbn; lia.
Defined.

(** The Sources [main] registers are sorted when the files are: neither
    the seek nor the delay disturbs the order. *)
Lemma seek_ordered (start : Z) (l : list Msg) :
  time_ordered l → time_ordered (seek start l).
Proof.
  unfold time_ordered. induction l as [|m l IH]; [done|].
  intros Hsorted. cbn [seek]. case_decide; [|done].
  apply IH. by apply Sorted_inv in Hsorted as [? _].
Qed.

Lemma delay_ordered (delay : Z) (l : list Msg) :
  time_ordered l → time_ordered (delay_msg delay <$> l).
Proof.
  apply Sorted_fmap. unfold time_le. intros x y Hxy. cbn. lia.
Qed.

Lemma open_input_ordered (env : Env) (o : Options) (start_tv : Z) (i : nat)
    (input : string) (op : Opened) :
  sorted_inputs env →
  open_input env o start_tv i input = Some op →
  time_ordered (pending (registered op)).
Proof.
  intros [Hstdin Hfiles]. unfold open_input.
  destruct (extract_fname env input) as [[filename delay]|]; [|done]. cbn.
  assert (∀ rd s, time_ordered (records s) →
            (if decide (delay = 0%Z) then
               Some (mkOpened rd None (mkSource i (records s) (corrupt s)) i filename)
             else
               Some (mkOpened rd (Some delay)
                       (mkSource (origin_of_delayed env i) (delay_msg delay <$> records s)
                          (corrupt s)) i filename)) = Some op →
            time_ordered (pending (registered op))) as Hreg.
  { intros rd s Hs. case_decide; intros [= <-]; cbn; [done|by apply delay_ordered]. }
  destruct (decide (filename = "-")) as [Hstd|Hfile].
  - cbn. by apply Hreg.
  - destruct (bool_decide (start_tv = earliest env) || linear_only o);
      destruct (open_file env filename (is_gz filename)) as [s|] eqn:Hopen; cbn; try done.
    + apply Hreg. by eapply Hfiles.
    + apply (Hreg _ (mkStream (seek start_tv (records s)) (corrupt s))).
      cbn. apply seek_ordered. by eapply Hfiles.
Qed.

Lemma open_inputs_ordered (env : Env) (o : Options) (start_tv : Z) (i : nat)
    (l : list string) (acc : Opening) :
  sorted_inputs env →
  Forall (λ s, time_ordered (pending s)) (dfm acc) →
  Forall (λ s, time_ordered (pending s)) (dfm (open_inputs env o start_tv i l acc)).
Proof.
  intros Henv. revert i acc. induction l as [|input rest IH]; intros i acc Hacc; [done|].
  cbn [open_inputs]. apply IH.
  destruct (open_input env o start_tv i input) as [op|] eqn:Hop; cbn; [|done].
  rewrite Forall_app, Forall_singleton. split; [done|]. by eapply open_input_ordered.
Qed.

(** On a machine whose files and standard input are sorted, what [main]
    has the multiplexer hand to its handler is in time order. *)
Lemma main_consumed_ordered (env : Env) (args : option Options) :
  sorted_inputs env → time_ordered (consumed (main env args)).*2.
Proof.
  intros Henv.
  assert (∀ o log, time_ordered (consumed (merge_and_exit env o log)).*2) as Hmerge.
  { intros o log. unfold merge_and_exit, merge_of. cbn [consumed].
    apply mplex_run_ordered.
    apply open_inputs_ordered; [done|constructor]. }
  destruct args as [o|]; cbn [main]; [|constructor].
  destruct (help o); [constructor|].
  repeat case_decide; try destruct (file_exists env (output_filename o));
    try apply Hmerge; constructor.
Qed.

(** C4: a Source that ends in a read error changes nothing in the merge:
    the messages delivered, the state of the consumer and the way the run
    ends are those of the run in which that Source ends cleanly. When the
    Source gives its read error it leaves the live set and the others stay
    as they are. A run that goes on until the live set is empty (as every
    run does whose consumer never asks to stop) has delivered every
    message of every Source, and it has noted the error, which its caller
    sees. *)
Theorem C4_read_error_isolated (H : Type) (I : IMStreamCallback H)
    (before after : list Source) (bad : Source) (h : H) :
  faulty bad = true →
  let streams := before ++ bad :: after in
  let r := mplex_run streams h in
  let r0 := mplex_run (before ++ heal bad :: after) h in
  (delivered r = delivered r0 ∧ final r = final r0 ∧ ending r = ending r0)
  ∧ (∀ live1 live2,
       refill (live1 ++ mkSlot (mkSource (origin bad) [] true) None :: live2)
       = ((refill live1).1 ++ (refill live2).1, true))
  ∧ (never_stops H → ending r = Exhausted)
  ∧ (ending r = Exhausted →
       (delivered r).*2 ≡ₚ streams ≫= pending
       ∧ read_error r = true ∧ run_threw r = true).
Proof.
  intros Hbad streams r r0. split; [|split; [|split]].
  - assert (Forall2 same_data ((λ s, mkSlot s None) <$> streams)
                              ((λ s, mkSlot s None) <$> (before ++ heal bad :: after)))
      as Hsame.
    { unfold streams. rewrite !fmap_app, !fmap_cons.
      apply Forall2_app; [|constructor]; try done;
        apply Forall_Forall2_diag, Forall_forall; done. }
    unfold r, r0, mplex_run. rewrite <-(same_data_backlog _ _ Hsame).
    by destruct (mplex_loop_same (S (length (backlog ((λ s, mkSlot s None) <$> streams))))
                  _ _ h false false Hsame) as (? & _ & ? & ?).
  - intros live1 live2. induction live1 as [|s live1 IH].
    + cbn. by destruct (refill live2).
    + cbn [app refill]. rewrite IH. destruct (refill live1) as [l1 f1]. cbn [fst].
      destruct (cached s); [done|]. by destruct (next (stream s)) as [[m| |] ?].
  - intros Hgo. pose proof (mplex_run_finishes H streams h) as Hfin.
    destruct (mplex_loop_never_stops H
                (S (length (backlog ((λ s, mkSlot s None) <$> streams))))
                ((λ s, mkSlot s None) <$> streams) h false Hgo); done.
  - intros Hend.
    assert (read_error r = true) as Herr.
    { apply mplex_loop_flags_fault; [|done].
      unfold has_fault, streams. rewrite fmap_app, fmap_cons.
      apply Exists_app. right. by left. }
    split_and!; [|done|].
    + unfold r, mplex_run. rewrite mplex_loop_exhausted by done. by rewrite backlog_fresh.
    + unfold run_threw. by rewrite Herr, orb_true_r.
Qed.

Lemma C4_read_error_isolated_witness :
  faulty source_B_corrupt = true
  ∧ (delivered (mplex_run [source_A; source_B_corrupt; source_C] plain_handler)).*2
    ≡ₚ [source_A; source_B_corrupt; source_C] ≫= pending.
Proof.
  split; [reflexivity|].
  apply (C4_read_error_isolated _ _ [source_A] [source_C] source_B_corrupt plain_handler);
    reflexivity.
Defined.



(** The scenario of section 8 of the spec: start_time 2, end_time 5 and
    trim_count 1 leave 2(A), 2(C), 3(B). *)
Example spec_scenario :
  let o := mkOptions ["A"; "B"; "C"] false false false false false false false false false
                     0 0 1 "2" "5" "" "" false in
  received <$> transport (main scenario_env (Some o))
  = Some [msg 2 "a2"; msg 2 "c2"; msg 3 "b3"].
Proof. vm_compute. done. Qed.

(** C5: with three inputs of which the second cannot be opened, the
    process warns, merges the other two in time order, and exits with
    success although ignore_file_errors is not set; the same when a start
    time makes [main] open the files itself for the searching reader. *)
Theorem C5_open_failure_exit_status :
  let o := bare_options ["A"; "B"; "C"] in
  let out := main demo_env (Some o) in
  let out' := main demo_env (Some (with_range "2" "" o)) in
  ignore_file_errors o = false
  ∧ events out = [OpenedStream (SingleStream "A" false) None; Warned "B";
                  OpenedStream (SingleStream "C" false) None; RanMultiplexer]
  ∧ received <$> transport out
    = Some [msg 1 "a1"; msg 2 "a2"; msg 2 "c2"; msg 3 "c3"; msg 5 "a5"]
  ∧ exit_status out = EXIT_SUCCESS
  ∧ events out' = [OpenedStream (SearchReader "A" false 2) None; Warned "B";
                   OpenedStream (SearchReader "C" false 2) None; RanMultiplexer]
  ∧ received <$> transport out' = Some [msg 2 "a2"; msg 2 "c2"; msg 3 "c3"; msg 5 "a5"]
  ∧ exit_status out' = EXIT_SUCCESS.
Proof. vm_compute. done. Qed.

(** C6, as stated, fails: with ignore_file_errors set and no input, no
    file error occurs and the process exits with failure. *)
Lemma C6_counterexample :
  let o := with_ignore_file_errors (bare_options []) in
  ignore_file_errors o = true
  ∧ main demo_env (Some o) = mkOutcome EXIT_FAILURE [Usage] [] None.
Proof. vm_compute. done. Qed.

Lemma chain_release_extends (c : OutChain) :
  received (terminal c) `prefix_of` received (release c).
Proof.
  destruct c as [t|[out num buf]|[out num buf]|[[out num' buf'] num buf]]; cbn;
    unfold tailed_release, trimmed_release; cbn; try done;
    rewrite terminal_sends; cbn; by apply prefix_app_r.
Qed.

(** ** The driver *)

Lemma open_inputs_log (env : Env) (o : Options) (start_tv : Z) (i : nat) (l : list string)
    (acc : Opening) :
  Forall opening_event (opening_log acc) →
  Forall opening_event (opening_log (open_inputs env o start_tv i l acc)).
Proof.
  revert i acc. induction l as [|input rest IH]; intros i acc Hacc; [done|].
  cbn [open_inputs]. apply IH.
  destruct (open_input env o start_tv i input); cbn;
    rewrite Forall_app, Forall_singleton; done.
Qed.

Lemma main_merges (env : Env) (o : Options) :
  reaches_merge env o →
  ∃ log, main env (Some o) = merge_and_exit env o log.
Proof.
  intros (Hhelp & Hrange & Hinputs & Hout). cbn [main]. rewrite Hhelp.
  rewrite decide_False by lia. rewrite decide_False by done.
  case_decide as Hname; [by eexists|].
  destruct Hout as [Hempty|Hfree]; [done|]. rewrite Hfree. by eexists.
Qed.

(** C6, amended: for an invocation that gets as far as the merge (help not
    asked for, start before end, at least one input, no output file in the
    way) and all of whose inputs open, the process exits with success if
    and only if no file error occurred during the run (no Source gave a
    read error and no exception cut the run short) or ignore_file_errors
    was set; and, with failure as with success, what the transport at the
    end of the chain had received when the run ended is still there, at
    the head of what it has received when the process exits. *)
Theorem C6_exit_status (env : Env) (o : Options) :
  reaches_merge env o →
  inputs_open env o →
  let r := merge_of env o in
  let out := main env (Some o) in
  (exit_status out = EXIT_SUCCESS
   ↔ (read_error r = false ∧ ending r ≠ Thrown) ∨ ignore_file_errors o = true)
  ∧ consumed out = delivered r
  ∧ ∃ t, transport out = Some t
         ∧ received (terminal (m_out (final r))) `prefix_of` received t.
Proof.
  intros [log Hmain]%main_merges _. cbn zeta. rewrite Hmain.
  unfold merge_and_exit, run_threw. cbn [exit_status consumed transport].
  split_and!; [|done|].
  - destruct (ignore_file_errors o), (read_error (merge_of env o));
      destruct (decide (ending (merge_of env o) = Thrown)) as [Hend|Hend];
      rewrite ?(bool_decide_eq_true_2 _ Hend), ?(bool_decide_eq_false_2 _ Hend); cbn;
      intuition congruence.
  - eexists. split; [done|]. apply chain_release_extends.
Qed.

Lemma C6_exit_status_witness :
  let o := bare_options ["A"; "C"] in
  reaches_merge worn_env o
  ∧ inputs_open worn_env o
  ∧ read_error (merge_of worn_env o) = true
  ∧ exit_status (main worn_env (Some o)) = EXIT_FAILURE
  ∧ ∃ t, transport (main worn_env (Some o)) = Some t
         ∧ [msg 1 "a1"; msg 2 "a2"; msg 2 "c2"; msg 3 "c3"] `prefix_of` received t.
Proof.
  assert (reaches_merge worn_env (bare_options ["A"; "C"])) as Hreach.
  { unfold reaches_merge. split_and!; [done|by vm_compute|done|by left]. }
  assert (inputs_open worn_env (bare_options ["A"; "C"])) as Hopen.
  { repeat constructor; eexists; vm_compute; reflexivity. }
  destruct (C6_exit_status worn_env (bare_options ["A"; "C"]) Hreach Hopen)
    as (Hstatus & _ & t & Ht & Hprefix).
  assert (exit_status (main worn_env (Some (bare_options ["A"; "C"]))) = EXIT_FAILURE)
    as Hfail.
  { destruct (exit_status (main worn_env (Some (bare_options ["A"; "C"]))));
      [|reflexivity].
    destruct (proj1 Hstatus eq_refl) as [[Hread _]|Hignore]; vm_compute in *; discriminate. }
  split; [exact Hreach|]. split; [exact Hopen|]. split; [vm_compute; reflexivity|].
  split; [exact Hfail|].
  exists t. split; [exact Ht|]. exact Hprefix.
Defined.

(** C7, as stated, fails: with help asked for, a configuration whose
    end_time is before its start_time ends in success; and without help, a
    protobuf definition file is loaded before the times are compared. *)
Lemma C7_counterexample :
  let o := with_range "5" "2" (bare_options ["A"]) in
  (end_of demo_env o < start_of demo_env o)%Z
  ∧ exit_status (main demo_env (Some (with_help o))) = EXIT_SUCCESS
  ∧ events (main demo_env (Some (with_proto "defs.proto" o)))
    = [LoadProto "defs.proto"; Complaint "start_tv is after end_tv"; Usage].
Proof. vm_compute. done. Qed.

(** C7, amended: for every configuration without help in which end_time is
    before start_time, the process exits with failure before any input is
    opened and before the output is set up; no message is consumed or
    sent. All it has done by then is to load the protobuf definition file,
    if one was named, and to complain. *)
Theorem C7_config_rejected (env : Env) (o : Options) :
  help o = false →
  (end_of env o < start_of env o)%Z →
  let out := main env (Some o) in
  exit_status out = EXIT_FAILURE
  ∧ events out = (if decide (proto_file_str o = "") then []
                  else [LoadProto (proto_file_str o)])
                 ++ [Complaint "start_tv is after end_tv"; Usage]
  ∧ consumed out = []
  ∧ transport out = None.
Proof.
  intros Hhelp Hrange. cbn [main]. rewrite Hhelp. by rewrite decide_True by lia.
Qed.

Lemma C7_config_rejected_witness :
  let o := with_range "5" "2" (bare_options ["A"]) in
  (end_of demo_env o < start_of demo_env o)%Z
  ∧ main demo_env (Some o) = rejected [Complaint "start_tv is after end_tv"; Usage].
Proof.
  assert (end_of demo_env (with_range "5" "2" (bare_options ["A"]))
          < start_of demo_env (with_range "5" "2" (bare_options ["A"])))%Z as Hrange
    by (vm_compute; done).
  split; [exact Hrange|].
  destruct (C7_config_rejected demo_env (with_range "5" "2" (bare_options ["A"]))
              eq_refl Hrange) as (Hstatus & Hevents & Hconsumed & Htransport).
  destruct (main demo_env (Some (with_range "5" "2" (bare_options ["A"]))))
    as [status log used t].
  cbn in *. by subst.
Defined.


(** With a delay after it, as in "-+1.0", the name still stands for
    standard input, and the delay is applied. *)
Example stdin_delayed :
  ∃ op, open_input demo_env (bare_options ["-+1.0"]) (earliest demo_env) 0 "-+1.0" = Some op
        ∧ reader op = StdinReader
        ∧ delay_of op = Some 1000000%Z
        ∧ pending (registered op) = [msg 1000007 "s7"].
Proof. eexists. split; [vm_compute; reflexivity|]. done. Qed.

(** C10, as stated, fails: with help asked for, the process exits with
    success although the output file named exists. And without help, the
    inputs are opened before the output file is looked for: with a start
    time set, the searching reader has been opened on "A" and has read
    past its first message by the time the process exits. *)
Lemma C10_counterexample :
  let o := with_output "old" (bare_options ["A"]) in
  output_filename o = "old"
  ∧ file_exists demo_env (output_filename o) = true
  ∧ exit_status (main demo_env (Some (with_help o))) = EXIT_SUCCESS
  ∧ events (main demo_env (Some (with_range "2" "" o)))
    = [OpenedStream (SearchReader "A" false 2) None; CheckedExists "old";
       Complaint "error: output file exists"]
  ∧ open_file demo_env "A" false = Some (mkStream [msg 1 "a1"; msg 2 "a2"; msg 5 "a5"] false)
  ∧ dfm (opened demo_env (with_range "2" "" o)) = [mkSource 0 [msg 2 "a2"; msg 5 "a5"] false].
Proof. vm_compute. done. Qed.

(** C10, amended: if help is not asked for, an output file name is given
    and a file of that name exists, the process exits with failure before
    the merge runs: the multiplexer is never run, so that no message is
    delivered from any Source, no transport is built, nothing is written,
    and no file is opened for writing. When the start time is before the
    end time and there is an input, the inputs have been opened by then,
    and sought where the searching reader is used: the process has loaded
    the protobuf definition file, if one was named, gone through the loop
    over the inputs, looked for the output file and complained. *)
Theorem C10_existing_output (env : Env) (o : Options) :
  help o = false →
  output_filename o ≠ "" →
  file_exists env (output_filename o) = true →
  let out := main env (Some o) in
  exit_status out = EXIT_FAILURE
  ∧ consumed out = []
  ∧ transport out = None
  ∧ Forall before_merge (events out)
  ∧ ((start_of env o < end_of env o)%Z → inputs o ≠ [] →
     events out = log_before_output env o
                  ++ [CheckedExists (output_filename o);
                      Complaint "error: output file exists"]).
Proof.
  intros Hhelp Hname Hexists. cbn [main]. rewrite Hhelp. unfold log_before_output.
  set (log := if decide (proto_file_str o = "") then [] else [LoadProto (proto_file_str o)]).
  assert (Forall before_merge log) as Hlog.
  { unfold log. case_decide; repeat constructor. }
  pose proof (open_inputs_log env o (start_of env o) 0 (inputs o) (mkOpening [] ∅ [])
                ltac:(constructor)) as Hopen.
  fold (opened env o) in Hopen.
  apply (Forall_impl _ before_merge) in Hopen; [|by intros []].
  repeat case_decide; try done; rewrite ?Hexists;
    cbn [rejected exit_status consumed transport events];
    (split_and!; [done|done|done| |]);
    try (intros; by rewrite <-?(assoc_L (++)); try lia);
    rewrite ?Forall_app; split_and?; try done; repeat constructor.
Qed.

Lemma C10_existing_output_witness :
  let o := with_output "old" (bare_options ["A"]) in
  file_exists demo_env (output_filename o) = true
  ∧ exit_status (main demo_env (Some o)) = EXIT_FAILURE
  ∧ events (main demo_env (Some o))
    = [OpenedStream (SingleStream "A" false) None; CheckedExists "old";
       Complaint "error: output file exists"].
Proof.
  split; [reflexivity|].
  destruct (C10_existing_output demo_env (with_output "old" (bare_options ["A"])))
    as (Hstatus & _ & _ & _ & Hevents); [reflexivity|done|reflexivity|].
  split; [exact Hstatus|].
  apply Hevents; [by vm_compute|done].
Defined.

(** * Further properties *)

(** ** The chain of transports as a whole *)

Lemma chain_sends (c : OutChain) (l : list Msg) :
  foldl send c l
  = match c with
    | Bare t => Bare (foldl send t l)
    | Tailed t => Tailed (foldl send t l)
    | Trimmed t => Trimmed (foldl send t l)
    | TrimmedTailed t => TrimmedTailed (foldl send t l)
    end.
Proof.
  revert c. induction l as [|m l IH]; intros c; [by destruct c|].
  cbn [foldl]. rewrite IH. by destruct c.
Qed.

(** What the terminal transport has received once a chain is released. *)
Lemma chain_released (term : TerminalTransport) (tail_len trim_len : nat) (l : list Msg) :
  received (release (foldl send (build_chain term tail_len trim_len) l))
  = received term ++ window tail_len trim_len l.
Proof.
  unfold build_chain, window. rewrite chain_sends.
  destruct (decide (0 < tail_len)) as [Htail|Htail],
           (decide (0 < trim_len)) as [Htrim|Htrim]; cbn [release OutChain_send].
  - rewrite trimmed_sends by (cbn; lia). cbn [app release TrimmedOutput_send].
    unfold trimmed_release. cbn [trimmed_out].
    rewrite tailed_sends by (cbn; lia). cbn [app release TailedOutput_send].
    unfold tailed_release. cbn [tailed_out tailed_buf].
    rewrite terminal_sends. done.
  - rewrite tailed_sends by (cbn; lia). cbn [app release TailedOutput_send].
    unfold tailed_release. cbn [tailed_out tailed_buf].
    rewrite terminal_sends. cbn [received].
    replace (length l - trim_len) with (length l) by lia. by rewrite firstn_all.
  - rewrite trimmed_sends by (cbn; lia). cbn [app release TrimmedOutput_send].
    unfold trimmed_release. cbn [trimmed_out].
    rewrite terminal_sends. done.
  - rewrite terminal_sends. cbn.
    replace (length l - trim_len) with (length l) by lia. by rewrite firstn_all.
Qed.

(** X1: whatever the tail and trim lengths are (zero switches a window
    off), once the chain [main] builds is released the terminal transport
    has received, after what it had before, the stream without its last
    [trim_len] messages, cut down to the last [tail_len] of those when a
    tail is asked for. *)
Theorem chain_output (term : TerminalTransport) (tail_len trim_len : nat) (l : list Msg) :
  received (release (foldl send (build_chain term tail_len trim_len) l))
  = received term ++ window tail_len trim_len l.
Proof. apply chain_released. Qed.

(** X2: with a tail length above zero nothing reaches the terminal
    transport while messages are sent, with or without a trim: all of the
    output is written when the chain is released. *)
Theorem tail_holds_back (term : TerminalTransport) (tail_len trim_len : nat) (l : list Msg) :
  0 < tail_len →
  terminal (foldl send (build_chain term tail_len trim_len) l) = term.
Proof.
  intros Htail. unfold build_chain. rewrite chain_sends, decide_True by done.
  destruct (decide (0 < trim_len)) as [Htrim|Htrim]; cbn [terminal OutChain_send].
  - rewrite trimmed_sends by (cbn; lia). cbn [app terminal TrimmedOutput_send trimmed_out].
    by rewrite tailed_sends by (cbn; lia).
  - by rewrite tailed_sends by (cbn; lia).
Qed.

Lemma tail_holds_back_witness :
  terminal (foldl send (build_chain (mkTerminal TextWrite false []) 2 1) demo_stream)
  = mkTerminal TextWrite false [].
Proof. apply (tail_holds_back (mkTerminal TextWrite false []) 2 1 demo_stream). lia. Defined.

(** X3: without a tail the terminal transport has received, after any
    number of sends, all that was sent but the last [trim_len] messages,
    and the release of the chain adds nothing: what is held back is
    thrown away. *)
Theorem trim_streams (term : TerminalTransport) (trim_len : nat) (l : list Msg) :
  let chain := foldl send (build_chain term 0 trim_len) l in
  received (terminal chain) = received term ++ take (length l - trim_len) l
  ∧ release chain = terminal chain.
Proof.
  cbn zeta. unfold build_chain. rewrite chain_sends, decide_False by lia.
  destruct (decide (0 < trim_len)) as [Htrim|Htrim];
    cbn [terminal release OutChain_send].
  - rewrite trimmed_sends by (cbn; lia).
    cbn [app terminal release TrimmedOutput_send trimmed_out]. unfold trimmed_release.
    cbn [trimmed_out terminal release TerminalTransport_send].
    by rewrite terminal_sends.
  - rewrite terminal_sends. cbn.
    replace (length l - trim_len) with (length l) by lia. by rewrite firstn_all.
Qed.

Lemma window_sublist (tail_len trim_len : nat) (l : list Msg) :
  window tail_len trim_len l `sublist_of` l.
Proof.
  unfold window. case_decide.
  - etrans; [apply sublist_drop|apply sublist_take].
  - apply sublist_take.
Qed.

Lemma window_length (tail_len trim_len : nat) (l : list Msg) :
  length (window tail_len trim_len l)
  = if decide (0 < tail_len) then (length l - trim_len) `min` tail_len
    else length l - trim_len.
Proof.
  unfold window. case_decide; rewrite ?length_drop, !length_take; lia.
Qed.

Section HandlerRun.
Context {T : Type} `{!ISendTransport T}.

Lemma passed_stop (h : MessageHandler T) (o : nat) (m : Msg) (ls : list string)
    (failed : bool) (e : Ending) :
  e = Stopped ∨ e = Thrown →
  passed (mkRun [(o, m)] ls h e failed) = [].
Proof. intros He. unfold passed. cbn. by rewrite decide_True. Qed.

Lemma passed_nil (h : MessageHandler T) (e : Ending) (failed : bool) :
  passed (mkRun [] [] h e failed) = [].
Proof. unfold passed. by case_decide. Qed.

Lemma passed_cons (o : nat) (m : Msg) (label : option string)
    (r : Run (MessageHandler T)) :
  (ending r = Stopped ∨ ending r = Thrown → delivered r ≠ []) →
  passed (after_delivery o m label r) = m :: passed r.
Proof.
  intros Hne. unfold passed. cbn. case_decide as Hend; [|done].
  specialize (Hne Hend). destruct (delivered r) as [|d ds]; [done|].
  cbn. by rewrite Nat.sub_0_r.
Qed.

Lemma mplex_loop_stop_delivered {H : Type} `{!IMStreamCallback H}
    (rounds : nat) (slots : list Slot) (h : H) (failed : bool) :
  ending (mplex_loop rounds slots h failed) = Stopped
  ∨ ending (mplex_loop rounds slots h failed) = Thrown →
  delivered (mplex_loop rounds slots h failed) ≠ [].
Proof.
  destruct rounds as [|rounds]; cbn [mplex_loop]; [by intros [|]|].
  destruct (refill slots) as [live err].
  destruct (select live) as [[[o m] live']|]; [|by intros [|]].
  destruct (onMessage h o m) as [what|h' [|] label]; done.
Qed.

(** What a run does to the handler: the start, the end, the head length
    and the names stay; the output transport is sent, in order, exactly
    the messages passed that are not before the start time; the count of
    messages seen goes up by their number; all messages passed are
    before the end time; and the count does not go over the head length. *)
Lemma handler_run (rounds : nat) (slots : list Slot) (h : MessageHandler T)
    (failed : bool) :
  let r := mplex_loop rounds slots h failed in
  let l := from_start (m_startTv h) (passed r) in
  m_out (final r) = foldl send (m_out h) l
  ∧ m_messagesSeen (final r) = (m_messagesSeen h + Z.of_nat (length l))%Z
  ∧ m_startTv (final r) = m_startTv h
  ∧ m_endTv (final r) = m_endTv h
  ∧ m_headLen (final r) = m_headLen h
  ∧ Forall (λ m, (time_sent m < m_endTv h)%Z) (passed r)
  ∧ (0 < m_headLen h → (m_messagesSeen h ≤ Z.of_nat (m_headLen h))%Z →
     (m_messagesSeen (final r) ≤ Z.of_nat (m_headLen h))%Z).
Proof.
  revert slots h failed. induction rounds as [|rounds IH]; intros slots h failed.
  { cbn zeta. cbn [mplex_loop]. rewrite passed_nil. cbn. split_and!; try done; lia. }
  cbn [mplex_loop]. destruct (refill slots) as [live err].
  destruct (select live) as [[[o m] live']|];
    [|cbn zeta; rewrite passed_nil; cbn; split_and!; try done; lia].
  assert (∀ label,
     match dispatch h m label with
     | Raised _ => True
     | Returned h' true _ => h' = h
     | Returned h' false _ =>
         (time_sent m < m_endTv h)%Z
         ∧ m_startTv h' = m_startTv h ∧ m_endTv h' = m_endTv h
         ∧ m_headLen h' = m_headLen h
         ∧ if decide (m_startTv h ≤ time_sent m)%Z
           then m_out h' = send (m_out h) m
                ∧ m_messagesSeen h' = (m_messagesSeen h + 1)%Z
                ∧ (0 < m_headLen h → (m_messagesSeen h' ≤ Z.of_nat (m_headLen h))%Z)
           else h' = h
     end) as Hdispatch.
  { intros label. unfold dispatch.
    repeat case_decide; cbn; split_and?; try done; lia. }
  cbn [onMessage MessageHandler_callback]. unfold handler_onMessage.
  assert (∀ label,
    let r := match dispatch h m label with
             | Raised _ => mkRun [(o, m)] [] h Thrown (failed || err)
             | Returned h' true label =>
                 after_delivery o m label (mkRun [] [] h' Stopped (failed || err))
             | Returned h' false label =>
                 after_delivery o m label (mplex_loop rounds live' h' (failed || err))
             end in
    let l := from_start (m_startTv h) (passed r) in
    m_out (final r) = foldl send (m_out h) l
    ∧ m_messagesSeen (final r) = (m_messagesSeen h + Z.of_nat (length l))%Z
    ∧ m_startTv (final r) = m_startTv h
    ∧ m_endTv (final r) = m_endTv h
    ∧ m_headLen (final r) = m_headLen h
    ∧ Forall (λ m, (time_sent m < m_endTv h)%Z) (passed r)
    ∧ (0 < m_headLen h → (m_messagesSeen h ≤ Z.of_nat (m_headLen h))%Z →
       (m_messagesSeen (final r) ≤ Z.of_nat (m_headLen h))%Z)) as Hstep.
  { intros label. specialize (Hdispatch label).
    destruct (dispatch h m label) as [what|h' [|] label'].
    - cbn zeta. rewrite passed_stop by (by right). cbn. split_and!; try done; lia.
    - subst h'. cbn zeta. unfold after_delivery. cbn [delivered labels final ending read_error app].
      rewrite passed_stop by (by left). cbn. split_and!; try done; lia.
    - destruct Hdispatch as (Hend & Hs & He & Hh & Hfwd). cbn zeta.
      rewrite passed_cons by apply mplex_loop_stop_delivered.
      cbn [after_delivery final].
      destruct (IH live' h' (failed || err)) as (Hout & Hseen & Hs' & He' & Hh' & Hpass & Hhead).
      cbn zeta in *. rewrite Hs, He, Hh in *.
      unfold from_start in *. rewrite filter_cons.
      destruct (decide (m_startTv h ≤ time_sent m)%Z) as [Hin|Hout'].
      + destruct Hfwd as (Hsend & Hcount & Hbound).
        cbn [foldl length]. rewrite <-Hsend, Hout, Hseen, Hcount.
        split_and!; try done; [lia|by constructor|].
        intros Hpos Hle. specialize (Hhead Hpos (Hbound Hpos)).
        by rewrite Hseen, Hcount in Hhead.
      + subst h'. split_and!; try done. by constructor. }
  destruct (m_streamNames h) as [names|]; [|apply Hstep].
  destruct (names !! o) as [name|]; [apply Hstep|].
  cbn zeta. rewrite passed_stop by (by right). cbn. split_and!; try done; lia.
Qed.

End HandlerRun.

(** ** The driver from end to end *)

Lemma handler_of_fields (env : Env) (o : Options) (names : gmap nat string) :
  let h := handler_of env o names in
  m_out h = build_chain (terminal_of o) (tail_len o) (trim_len o)
  ∧ m_messagesSeen h = 0%Z
  ∧ m_startTv h = start_of env o
  ∧ m_endTv h = end_of env o
  ∧ m_headLen h = head_len o.
Proof. unfold handler_of. by destruct (print_names o && _ && _). Qed.

(** [main] either merges, or ends with nothing consumed and no transport. *)
Lemma main_outcome (env : Env) (args : option Options) :
  (∃ o log, args = Some o ∧ main env args = merge_and_exit env o log)
  ∨ (∃ status log, main env args = mkOutcome status log [] None).
Proof.
  destruct args as [o|]; cbn [main]; [|right; by eexists _, _].
  destruct (help o); [right; by eexists _, _|].
  destruct (decide (end_of env o ≤ start_of env o)%Z); [right; by eexists _, _|].
  destruct (decide (inputs o = [])); [right; by eexists _, _|].
  destruct (decide (output_filename o = "")); [left; by eexists _, _|].
  destruct (file_exists env (output_filename o));
    [right; by eexists _, _|left; by eexists _, _].
Qed.

Lemma merge_written (env : Env) (o : Options) (log : list Event) :
  written (merge_and_exit env o log)
  = window (tail_len o) (trim_len o) (forwarded env o)
  ∧ m_messagesSeen (final (merge_of env o)) = Z.of_nat (length (forwarded env o)).
Proof.
  unfold written, merge_and_exit, forwarded. cbn [transport events].
  unfold merge_of, mplex_run.
  set (h := handler_of env o _). set (slots := (λ s, mkSlot s None) <$> _).
  destruct (handler_of_fields env o (stream_names (opened env o)))
    as (Hout & Hseen & Hstart & Hend & Hhead). fold h in Hout, Hseen, Hstart, Hend, Hhead.
  destruct (handler_run (S (length (backlog slots))) slots h false)
    as (Hfinal & Hcount & _). cbn zeta in *.
  rewrite Hstart in *. split.
  - rewrite Hfinal, Hout, chain_released. done.
  - rewrite Hcount, Hseen. lia.
Qed.

Lemma passed_sublist {H : Type} (r : Run H) : passed r `sublist_of` (delivered r).*2.
Proof. unfold passed. case_decide; [apply sublist_take|done]. Qed.

Lemma forwarded_sublist (env : Env) (o : Options) :
  forwarded env o `sublist_of` (delivered (merge_of env o)).*2.
Proof.
  unfold forwarded, from_start. etrans; [apply sublist_filter|apply passed_sublist].
Qed.

Lemma forwarded_in_range (env : Env) (o : Options) :
  Forall (λ m, (start_of env o ≤ time_sent m < end_of env o)%Z) (forwarded env o).
Proof.
  unfold forwarded, from_start, merge_of, mplex_run.
  set (h := handler_of env o _). set (slots := (λ s, mkSlot s None) <$> _).
  destruct (handler_of_fields env o (stream_names (opened env o)))
    as (_ & _ & Hstart & Hend & _). fold h in Hstart, Hend.
  destruct (handler_run (S (length (backlog slots))) slots h false)
    as (_ & _ & _ & _ & _ & Hpass & _). cbn zeta in *.
  rewrite Hend in Hpass. rewrite Forall_forall in Hpass.
  apply Forall_forall. intros m [Hm Hin]%list_elem_of_filter.
  split; [done|by apply Hpass].
Qed.

Lemma forwarded_head (env : Env) (o : Options) :
  0 < head_len o → length (forwarded env o) ≤ head_len o.
Proof.
  intros Hpos. unfold forwarded, merge_of, mplex_run.
  set (h := handler_of env o _). set (slots := (λ s, mkSlot s None) <$> _).
  destruct (handler_of_fields env o (stream_names (opened env o)))
    as (_ & Hseen & Hstart & _ & Hhead). fold h in Hseen, Hstart, Hhead.
  destruct (handler_run (S (length (backlog slots))) slots h false)
    as (_ & Hcount & _ & _ & _ & _ & Hbound). cbn zeta in *.
  rewrite Hhead, Hseen in Hbound. rewrite Hcount, Hseen, Hstart in Hbound.
  specialize (Hbound Hpos). lia.
Qed.

Lemma sublist_Forall {A : Type} (P : A → Prop) (l1 l2 : list A) :
  l1 `sublist_of` l2 → Forall P l2 → Forall P l1.
Proof.
  intros Hsub Hall. rewrite Forall_forall in Hall. apply Forall_forall.
  intros x Hx. apply Hall. by eapply elem_of_sublist.
Qed.

Lemma sublist_StronglySorted {A : Type} (R : relation A) (l1 l2 : list A) :
  l1 `sublist_of` l2 → StronglySorted R l2 → StronglySorted R l1.
Proof.
  induction 1 as [|x l1 l2 Hsub IH|x l1 l2 Hsub IH]; [done| |].
  - intros [Hsorted Hhead]%StronglySorted_inv. constructor; [by apply IH|].
    by eapply sublist_Forall.
  - intros [Hsorted _]%StronglySorted_inv. by apply IH.
Qed.

(** X4: when [main] gets as far as the merge, what the terminal transport
    has received at the end is the window (X1) of the messages that were
    delivered before the run was stopped and are not before the start
    time, in the order of delivery. *)
Theorem main_output_exact (env : Env) (o : Options) :
  reaches_merge env o →
  written (main env (Some o))
  = window (tail_len o) (trim_len o)
      (from_start (start_of env o) (passed (merge_of env o)))
  ∧ consumed (main env (Some o)) = delivered (merge_of env o).
Proof.
  intros [log ->]%main_merges. split; [apply merge_written|done].
Qed.

Lemma main_output_exact_witness :
  written (main demo_env (Some (bare_options ["A"; "B"; "C"])))
  = window 0 0 (from_start (-100)%Z (passed (merge_of demo_env (bare_options ["A"; "B"; "C"])))).
Proof.
  apply (main_output_exact demo_env (bare_options ["A"; "B"; "C"])).
  unfold reaches_merge. split_and!; [done|by vm_compute|done|by left].
Defined.

(** X5: every message the terminal transport receives has a time at or
    after the start time and before the end time, whatever the inputs and
    the options. *)
Theorem main_output_in_range (env : Env) (o : Options) :
  Forall (λ m, (start_of env o ≤ time_sent m < end_of env o)%Z)
         (written (main env (Some o))).
Proof.
  destruct (main_outcome env (Some o)) as [(o' & log & [= <-] & ->)|(status & log & ->)];
    [|constructor].
  destruct (merge_written env o log) as [-> _].
  eapply sublist_Forall; [apply window_sublist|apply forwarded_in_range].
Qed.

(** X6: with a head length above zero the terminal transport receives at
    most that many messages. *)
Theorem main_head_limit (env : Env) (o : Options) :
  0 < head_len o →
  length (written (main env (Some o))) ≤ head_len o.
Proof.
  intros Hpos.
  destruct (main_outcome env (Some o)) as [(o' & log & [= <-] & ->)|(status & log & ->)];
    [|cbn; lia].
  destruct (merge_written env o log) as [-> _].
  etrans; [apply sublist_length, window_sublist|by apply forwarded_head].
Qed.

Lemma main_head_limit_witness :
  length (written (main demo_env (Some (counting_options 2)))) ≤ 2.
Proof. apply (main_head_limit demo_env (counting_options 2)). cbn. lia. Defined.

Lemma written_sublist (env : Env) (args : option Options) :
  written (main env args) `sublist_of` (consumed (main env args)).*2.
Proof.
  destruct (main_outcome env args) as [(o & log & -> & ->)|(status & log & ->)]; [|done].
  destruct (merge_written env o log) as [-> _].
  etrans; [apply window_sublist|]. apply forwarded_sublist.
Qed.

(** X8: what the terminal transport receives is a subsequence of what the
    multiplexer delivered: no message is made up, sent twice or sent out
    of turn. *)
Theorem main_output_subsequence (env : Env) (args : option Options) :
  written (main env args) `sublist_of` (consumed (main env args)).*2.
Proof. apply written_sublist. Qed.

(** X9: when every file and standard input are sorted by time, what the
    terminal transport receives is in time order, as the usage text
    promises. *)
Theorem main_output_ordered (env : Env) (args : option Options) :
  sorted_inputs env → time_ordered (written (main env args)).
Proof.
  intros Hsorted%(main_consumed_ordered env args).
  apply StronglySorted_Sorted.
  eapply sublist_StronglySorted; [apply written_sublist|].
  by apply Sorted_StronglySorted; [apply _|].
Qed.

Lemma demo_env_sorted : sorted_inputs demo_env.
Proof.
  split; [repeat constructor|].
  intros filename isGz s. cbn. unfold demo_files.
  repeat case_decide; intros [= <-]; repeat constructor; unfold time_le; cbn; lia.
Qed.

Lemma main_output_ordered_witness :
  time_ordered (written (main demo_env (Some (bare_options ["A"; "B"; "C"])))).
Proof. apply (main_output_ordered demo_env _ demo_env_sorted). Defined.

Lemma main_log (env : Env) (o : Options) :
  (∃ log, Forall uncounted log ∧ main env (Some o) = merge_and_exit env o log)
  ∨ (∃ status log, Forall uncounted log ∧ main env (Some o) = mkOutcome status log [] None).
Proof.
  assert (Forall uncounted (opening_log (opened env o))) as Hopen.
  { eapply Forall_impl; [apply open_inputs_log; constructor|]. by intros []. }
  assert (Forall uncounted (if decide (proto_file_str o = "") then []
                            else [LoadProto (proto_file_str o)])) as Hproto.
  { case_decide; repeat constructor. }
  cbn [main].
  destruct (help o); [right; eexists _, _; split; [|done]; repeat constructor|].
  destruct (decide (end_of env o ≤ start_of env o)%Z).
  { right. eexists _, _. split; [|done]. rewrite Forall_app. split; [done|repeat constructor]. }
  destruct (decide (inputs o = [])).
  { right. eexists _, _. split; [|done]. rewrite Forall_app. split; [done|repeat constructor]. }
  destruct (decide (output_filename o = "")).
  { left. eexists. split; [|done]. rewrite Forall_app. by split. }
  destruct (file_exists env (output_filename o)).
  - right. eexists _, _. split; [|done]. rewrite !Forall_app. split_and!; try done.
    repeat constructor.
  - left. eexists. split; [|done]. rewrite !Forall_app. split_and!; try done.
    repeat constructor.
Qed.

(** X7: the number [main] reports when asked to count is the number of
    messages the handler forwarded to the chain, not the number read and
    not the number written: what is written is that number less the trim
    length, and at most the tail length when a tail is asked for. *)
Theorem main_count (env : Env) (o : Options) (n : Z) :
  Counted n ∈ events (main env (Some o)) →
  n = Z.of_nat (length (forwarded env o))
  ∧ length (written (main env (Some o)))
    = if decide (0 < tail_len o) then (Z.to_nat n - trim_len o) `min` tail_len o
      else Z.to_nat n - trim_len o.
Proof.
  destruct (main_log env o) as [(log & Hlog & ->)|(status & log & Hlog & ->)].
  - destruct (merge_written env o log) as [-> Hseen].
    unfold merge_and_exit. cbn [events].
    rewrite !elem_of_app. intros [Hin|[Hin|Hin]].
    + rewrite Forall_forall in Hlog. by destruct (Hlog _ Hin).
    + by apply list_elem_of_singleton in Hin.
    + destruct (count o); [|by apply elem_of_nil in Hin].
      apply list_elem_of_singleton in Hin as [= ->]. rewrite Hseen.
      split; [done|]. rewrite window_length, Nat2Z.id. done.
  - cbn [events]. intros Hin. rewrite Forall_forall in Hlog. by destruct (Hlog _ Hin).
Qed.

Lemma main_count_witness :
  Counted 4 ∈ events (main demo_env (Some (counting_options 4)))
  ∧ 4%Z = Z.of_nat (length (forwarded demo_env (counting_options 4))).
Proof.
  assert (Counted 4 ∈ events (main demo_env (Some (counting_options 4)))) as Hin.
  { assert (events (main demo_env (Some (counting_options 4)))
            = [OpenedStream (SingleStream "A" false) None; Warned "B";
               OpenedStream (SingleStream "C" false) None; RanMultiplexer; Counted 4])
      as -> by (vm_compute; reflexivity).
    do 4 apply list_elem_of_further. apply list_elem_of_here. }
  split; [exact Hin|].
  apply (main_count demo_env (counting_options 4) 4 Hin).
Defined.

(** ** The lookup of file names *)

Lemma refill_origins (P : nat → Prop) (slots : list Slot) :
  Forall (λ s, P (origin (stream s))) slots →
  Forall (λ s, P (origin (stream s))) (refill slots).1.
Proof.
  induction slots as [|[[o p f] c] rest IH]; [done|].
  intros [Hs Hrest]%Forall_cons. specialize (IH Hrest).
  refill_head rest IH.
  destruct c as [m|]; [by constructor|].
  destruct p as [|m p]; [by destruct f|by constructor].
Qed.

Lemma select_origin (P : nat → Prop) (slots : list Slot) o m slots' :
  Forall (λ s, P (origin (stream s))) slots →
  select slots = Some (o, m, slots') →
  P o ∧ Forall (λ s, P (origin (stream s))) slots'.
Proof.
  revert o m slots'. induction slots as [|s rest IH]; intros o m slots'; [done|].
  intros [Hs Hrest]%Forall_cons. cbn [select].
  destruct (cached s) as [m0|], (select rest) as [[[o' m'] rest']|] eqn:Hsel;
    try case_decide; intros [= <- <- <-];
    try (destruct (IH _ _ _ Hrest eq_refl) as [Ho Hrest']);
    split; try done; by constructor.
Qed.

Lemma dispatch_names {T : Type} `{!ISendTransport T} (h : MessageHandler T) (m : Msg)
    (label : option string) :
  match dispatch h m label with
  | Raised _ => False
  | Returned h' _ _ => m_streamNames h' = m_streamNames h
  end.
Proof. unfold dispatch. by repeat case_decide. Qed.

(** The multiplexer says of a message that it comes from one of the
    streams registered with it. *)
Lemma mplex_loop_origins {H : Type} `{!IMStreamCallback H} (P : nat → Prop)
    (rounds : nat) (slots : list Slot) (h : H) (failed : bool) :
  Forall (λ s, P (origin (stream s))) slots →
  Forall (λ d, P d.1) (delivered (mplex_loop rounds slots h failed)).
Proof.
  revert slots h failed. induction rounds as [|rounds IH]; intros slots h failed Hslots;
    [constructor|].
  cbn [mplex_loop].
  pose proof (refill_origins P slots Hslots) as Hlive.
  destruct (refill slots) as [live err]. cbn [fst] in Hlive.
  destruct (select live) as [[[o m] live']|] eqn:Hsel; [|constructor].
  destruct (select_origin P live o m live' Hlive Hsel) as [Ho Hlive'].
  destruct (onMessage h o m) as [what|h' [|] label]; cbn.
  - by repeat constructor.
  - by repeat constructor.
  - constructor; [done|]. by apply IH.
Qed.

Lemma handler_of_names (env : Env) (o : Options) (names : gmap nat string) :
  m_streamNames (handler_of env o names) = if names_printed o then Some names else None.
Proof. unfold handler_of, names_printed. by destruct (print_names o && _ && _). Qed.

Lemma open_input_origin (env : Env) (o : Options) (start_tv : Z) (i : nat)
    (input : string) (op : Opened) :
  origin_kept env input →
  open_input env o start_tv i input = Some op →
  origin (registered op) = i ∧ name_key op = i.
Proof.
  intros Hkept. unfold open_input.
  destruct (extract_fname env input) as [[filename delay]|] eqn:Hname; [|done]. cbn.
  assert (delay ≠ 0%Z → origin_of_delayed env i = i) as Hsame.
  { destruct Hkept as [Hplain|Hid]; [|done]. intros Hdelay.
    by destruct (Hdelay (Hplain _ _ Hname)). }
  destruct (decide (filename = "-")); [|destruct (_ || _)]; cbn;
    try destruct (open_file env filename (is_gz filename)); cbn; try done;
    destruct (decide (delay = 0%Z)); intros [= <-]; cbn; auto.
Qed.

Lemma open_inputs_names (env : Env) (o : Options) (start_tv : Z) (i : nat)
    (l : list string) (acc : Opening) :
  print_names o = true →
  Forall (origin_kept env) l →
  Forall (λ s, is_Some (stream_names acc !! origin s)) (dfm acc) →
  let op := open_inputs env o start_tv i l acc in
  Forall (λ s, is_Some (stream_names op !! origin s)) (dfm op).
Proof.
  intros Hprint. revert i acc. induction l as [|input rest IH]; intros i acc; [done|].
  intros [Hinput Hrest]%Forall_cons Hacc. cbn [open_inputs]. apply IH; [done|].
  destruct (open_input env o start_tv i input) as [op|] eqn:Hop; cbn; [|done].
  destruct (open_input_origin _ _ _ _ _ _ Hinput Hop) as [Horigin Hkey].
  rewrite Hprint, Forall_app, Forall_singleton. split.
  - eapply Forall_impl; [exact Hacc|]. intros s Hs. cbn in Hs.
    by apply lookup_insert_is_Some'; right.
  - rewrite Horigin, Hkey. apply lookup_insert_is_Some'. by left.
Qed.

(** X11: every message the multiplexer delivers in a run of [main] comes
    from a stream whose name [main] has put on record when file names are
    printed, so that the lookup the handler makes for the message finds a
    name: as long as the inputs carry no delay, or the stream that delays
    one passes on the origin of the stream it is wrapped around. *)
Theorem main_names_found (env : Env) (o : Options) :
  Forall (origin_kept env) (inputs o) →
  Forall (λ d, named (handler_of env o (stream_names (opened env o))) d.1)
         (delivered (merge_of env o)).
Proof.
  intros Hkept. unfold named. rewrite handler_of_names.
  destruct (names_printed o) eqn:Hnames; [|by apply Forall_forall].
  unfold merge_of, mplex_run.
  apply (mplex_loop_origins (λ origin, is_Some (stream_names (opened env o) !! origin))).
  rewrite Forall_fmap. cbn.
  apply (open_inputs_names env o (start_of env o) 0 (inputs o) (mkOpening [] ∅ []));
    [|done|constructor].
  unfold names_printed in Hnames. by destruct (print_names o).
Qed.

Lemma main_names_found_witness :
  let o := with_inputs ["A"; "B"; "C+1.0"] naming_options in
  Forall (origin_kept demo_env) (inputs o)
  ∧ m_streamNames (handler_of demo_env o (stream_names (opened demo_env o)))
    = Some {[ 0 := "A"; 2 := "C" ]}
  ∧ (delivered (merge_of demo_env o)).*1 = [0; 0; 0; 2]
  ∧ Forall (λ d, named (handler_of demo_env o (stream_names (opened demo_env o))) d.1)
           (delivered (merge_of demo_env o)).
Proof.
  assert (Forall (origin_kept demo_env) ["A"; "B"; "C+1.0"]) as Hkept.
  { constructor; [|constructor; [|constructor; [|constructor]]]; by right. }
  split; [exact Hkept|]. split; [vm_compute; reflexivity|]. split; [vm_compute; reflexivity|].
  apply (main_names_found demo_env (with_inputs ["A"; "B"; "C+1.0"] naming_options) Hkept).
Defined.

(** ** The loop over the inputs *)






(** The event and the Source of an input do not depend on where it stands
    among the inputs, the address of the stream apart. *)
Lemma open_input_position (env : Env) (o : Options) (start_tv : Z) (i j : nat)
    (input : string) :
  match open_input env o start_tv i input, open_input env o start_tv j input with
  | Some op, Some op' =>
      reader op = reader op' ∧ delay_of op = delay_of op' ∧ name op = name op'
      ∧ same_stream (registered op) (registered op')
  | None, None => True
  | _, _ => False
  end.
Proof.
  unfold open_input.
  destruct (extract_fname env input) as [[filename delay]|]; [|done]. cbn.
  destruct (decide (filename = "-")); [|destruct (_ || _)]; cbn;
    try destruct (open_file env filename (is_gz filename)); cbn; try done;
    by case_decide.
Qed.

Lemma open_inputs_log_app (env : Env) (o : Options) (i : nat) (l : list string)
    (acc : Opening) :
  opening_log (open_inputs env o (start_of env o) i l acc)
  = opening_log acc ++ (input_event env o <$> l).
Proof.
  revert i acc. induction l as [|input rest IH]; intros i acc.
  { by rewrite app_nil_r. }
  cbn [open_inputs fmap list_fmap]. rewrite IH. unfold input_event at 2.
  pose proof (open_input_position env o (start_of env o) i 0 input) as Hpos.
  destruct (open_input env o (start_of env o) i input) as [op|],
           (open_input env o (start_of env o) 0 input) as [op'|]; try done;
    cbn [opening_log]; rewrite <-(assoc_L (++)); [|done].
  by destruct Hpos as (-> & -> & _).
Qed.

Lemma open_inputs_dfm_length (env : Env) (o : Options) (start_tv : Z) (i : nat)
    (l : list string) (acc : Opening) :
  length (dfm (open_inputs env o start_tv i l acc))
  = length (dfm acc)
    + length (filter (λ input, is_Some (open_input env o start_tv 0 input)) l).
Proof.
  revert i acc. induction l as [|input rest IH]; intros i acc; [cbn; lia|].
  cbn [open_inputs]. rewrite IH, filter_cons.
  pose proof (open_input_position env o start_tv i 0 input) as Hpos.
  destruct (open_input env o start_tv i input) as [op|],
           (open_input env o start_tv 0 input) as [op'|]; try done; cbn.
  rewrite decide_True by done. rewrite length_app. cbn. lia.
Qed.

(** X15: the loop over the inputs reports one event for each input, in the
    order of the inputs, an opening or a warning, decided by that input
    alone; and it registers as many streams as there are inputs that
    open. *)
Theorem main_inputs_accounted (env : Env) (o : Options) :
  opening_log (opened env o) = input_event env o <$> inputs o
  ∧ length (dfm (opened env o))
    = length (filter (λ input, is_Some (open_input env o (start_of env o) 0 input))
                     (inputs o)).
Proof.
  split.
  - unfold opened. by rewrite open_inputs_log_app.
  - unfold opened. by rewrite open_inputs_dfm_length.
Qed.

(** ** An input that cannot be opened *)

Lemma refill_same_slots (l l' : list Slot) :
  Forall2 same_slot l l' →
  Forall2 same_slot (refill l).1 (refill l').1 ∧ (refill l).2 = (refill l').2.
Proof.
  induction 1 as [|[[o p f] c] [[o' p' f'] c'] l l' (Hc & Hp & Hf) _ IH]; [done|].
  cbn in Hc, Hp, Hf. subst c' p' f'. cbn [refill].
  destruct (refill l) as [live failed], (refill l') as [live' failed'].
  cbn [fst snd] in IH. destruct IH as [IH ->].
  destruct c as [m|]; [split; [by constructor|done]|].
  destruct p as [|m p]; [by destruct f|]. split; [by constructor|done].
Qed.

Lemma select_same_slots (l l' : list Slot) :
  Forall2 same_slot l l' →
  match select l, select l' with
  | Some (_, m, r), Some (_, m', r') => m = m' ∧ Forall2 same_slot r r'
  | None, None => True
  | _, _ => False
  end.
Proof.
  induction 1 as [|s s' l l' Hs Hl IH]; [done|].
  pose proof Hs as (Hc & Hp & Hf).
  cbn [select]. rewrite <-Hc.
  destruct (select l) as [[[o1 m1] r1]|], (select l') as [[[o2 m2] r2]|]; try done.
  - destruct IH as (<- & Hr).
    destruct (cached s) as [m0|].
    + case_decide; split; try done; by constructor.
    + split; [done|]. by constructor.
  - destruct (cached s) as [m0|]; [|done].
    split; [done|]. by constructor.
Qed.

Lemma same_slots_backlog (l l' : list Slot) :
  Forall2 same_slot l l' → backlog l = backlog l'.
Proof.
  induction 1 as [|s s' l l' (Hc & Hp & Hf) _ IH]; [done|].
  rewrite !backlog_cons, IH. unfold slot_msgs. by rewrite Hc, Hp.
Qed.

(** A handler that prints no file names does the same on two working
    sets that hold the same messages, whatever streams they come from. *)
Lemma handler_loop_blind {T : Type} `{!ISendTransport T}
    (rounds : nat) (l l' : list Slot) (h : MessageHandler T) (failed : bool) :
  m_streamNames h = None →
  Forall2 same_slot l l' →
  let r := mplex_loop rounds l h failed in
  let r' := mplex_loop rounds l' h failed in
  (delivered r).*2 = (delivered r').*2 ∧ final r = final r'
  ∧ ending r = ending r' ∧ read_error r = read_error r'.
Proof.
  revert l l' h failed.
  induction rounds as [|rounds IH]; intros l l' h failed Hnames Hsame; [done|].
  cbn [mplex_loop].
  apply refill_same_slots in Hsame as [Hsame Herr].
  destruct (refill l) as [live err], (refill l') as [live' err'].
  cbn [fst snd] in Hsame, Herr. subst err'.
  apply select_same_slots in Hsame.
  destruct (select live) as [[[o m] r]|], (select live') as [[[o' m'] r']|]; try done.
  destruct Hsame as (<- & Hsame).
  cbn [onMessage MessageHandler_callback]. unfold handler_onMessage. rewrite Hnames.
  pose proof (dispatch_names h m None) as Hkeep.
  destruct (dispatch h m None) as [what|h' [|] label]; cbn; [done|done|].
  rewrite Hnames in Hkeep.
  destruct (IH r r' h' (failed || err) Hkeep Hsame) as (-> & -> & -> & ->).
  done.
Qed.

Lemma open_inputs_same (env : Env) (o : Options) (start_tv : Z) (i j : nat)
    (l : list string) (acc acc' : Opening) :
  Forall2 same_stream (dfm acc) (dfm acc') →
  Forall2 same_stream (dfm (open_inputs env o start_tv i l acc))
                      (dfm (open_inputs env o start_tv j l acc')).
Proof.
  revert i j acc acc'. induction l as [|input rest IH]; intros i j acc acc' Hacc; [done|].
  cbn [open_inputs]. apply IH.
  pose proof (open_input_position env o start_tv i j input) as Hpos.
  destruct (open_input env o start_tv i input) as [op|],
           (open_input env o start_tv j input) as [op'|]; try done; cbn.
  apply Forall2_app; [done|]. constructor; [|done]. by destruct Hpos as (_ & _ & _ & ?).
Qed.

Lemma open_inputs_app (env : Env) (o : Options) (start_tv : Z) (i : nat)
    (l1 l2 : list string) (acc : Opening) :
  open_inputs env o start_tv i (l1 ++ l2) acc
  = open_inputs env o start_tv (i + length l1) l2 (open_inputs env o start_tv i l1 acc).
Proof.
  revert i acc. induction l1 as [|input rest IH]; intros i acc.
  { cbn. by rewrite Nat.add_0_r. }
  cbn [app open_inputs length]. rewrite IH. f_equal. lia.
Qed.

Lemma open_inputs_options (env : Env) (o : Options) (l' : list string) (start_tv : Z)
    (i : nat) (l : list string) (acc : Opening) :
  open_inputs env (with_inputs l' o) start_tv i l acc = open_inputs env o start_tv i l acc.
Proof. revert i acc. induction l as [|input rest IH]; intros i acc; [done|]. cbn. by rewrite IH. Qed.

Lemma handler_of_unnamed (env : Env) (o : Options) (l : list string)
    (names : gmap nat string) :
  names_printed o = false →
  handler_of env (with_inputs l o) names = handler_of env o ∅
  ∧ m_streamNames (handler_of env o ∅) = None.
Proof.
  unfold names_printed, handler_of. cbn. by intros ->.
Qed.

(** The run of [main] on inputs of which one cannot be opened is the run
    on the others. *)
Lemma merge_of_skips (env : Env) (o : Options) (l1 l2 : list string) (bad : string) :
  names_printed o = false →
  open_input env o (start_of env o) 0 bad = None →
  let r := merge_of env (with_inputs (l1 ++ bad :: l2) o) in
  let r' := merge_of env (with_inputs (l1 ++ l2) o) in
  (delivered r).*2 = (delivered r').*2 ∧ final r = final r'
  ∧ ending r = ending r' ∧ read_error r = read_error r'.
Proof.
  intros Hnames Hbad. cbn zeta. unfold merge_of, opened.
  rewrite !(proj1 (handler_of_unnamed env o _ _ Hnames)).
  rewrite !open_inputs_options. cbn [inputs with_inputs].
  change (start_of env (with_inputs _ o)) with (start_of env o).
  set (start_tv := start_of env o). set (none := mkOpening [] ∅ []).
  assert (Forall2 same_stream
            (dfm (open_inputs env o start_tv 0 (l1 ++ bad :: l2) none))
            (dfm (open_inputs env o start_tv 0 (l1 ++ l2) none))) as Hdfm.
  { rewrite !open_inputs_app. cbn [open_inputs].
    pose proof (open_input_position env o start_tv (0 + length l1) 0 bad) as Hpos.
    fold start_tv in Hbad. rewrite Hbad in Hpos.
    destruct (open_input env o start_tv (0 + length l1) bad); [done|].
    apply open_inputs_same. cbn. apply Forall_Forall2_diag, Forall_forall. done. }
  assert (Forall2 same_slot
            ((λ s, mkSlot s None) <$> dfm (open_inputs env o start_tv 0 (l1 ++ bad :: l2) none))
            ((λ s, mkSlot s None) <$> dfm (open_inputs env o start_tv 0 (l1 ++ l2) none)))
    as Hslots.
  { apply Forall2_fmap. eapply Forall2_impl; [exact Hdfm|]. done. }
  unfold mplex_run. rewrite (same_slots_backlog _ _ Hslots).
  apply handler_loop_blind; [|done].
  apply (handler_of_unnamed env o [] ∅ Hnames).
Qed.

(** X16: when file names are not printed, an input that cannot be opened
    changes nothing but the warning: the messages delivered, what the
    terminal transport receives and the exit status are those of the run
    without that input. *)
Theorem main_open_failure_isolated (env : Env) (o : Options) (l1 l2 : list string)
    (bad : string) :
  names_printed o = false →
  open_input env o (start_of env o) 0 bad = None →
  l1 ++ l2 ≠ [] →
  let out := main env (Some (with_inputs (l1 ++ bad :: l2) o)) in
  let out' := main env (Some (with_inputs (l1 ++ l2) o)) in
  written out = written out'
  ∧ (consumed out).*2 = (consumed out').*2
  ∧ exit_status out = exit_status out'.
Proof.
  intros Hnames Hbad Hrest.
  destruct (merge_of_skips env o l1 l2 bad Hnames Hbad) as (Hd & Hf & He & Hr).
  cbn zeta in *. cbn [main with_inputs help proto_file_str inputs output_filename].
  change (start_of env (with_inputs _ o)) with (start_of env o).
  change (end_of env (with_inputs _ o)) with (end_of env o).
  destruct (help o); [done|].
  destruct (decide (end_of env o ≤ start_of env o)%Z); [done|].
  rewrite (decide_False (P := l1 ++ bad :: l2 = [])) by (by destruct l1).
  rewrite (decide_False (P := l1 ++ l2 = [])) by done.
  assert (∀ log log',
    written (merge_and_exit env (with_inputs (l1 ++ bad :: l2) o) log)
    = written (merge_and_exit env (with_inputs (l1 ++ l2) o) log')
    ∧ (consumed (merge_and_exit env (with_inputs (l1 ++ bad :: l2) o) log)).*2
      = (consumed (merge_and_exit env (with_inputs (l1 ++ l2) o) log')).*2
    ∧ exit_status (merge_and_exit env (with_inputs (l1 ++ bad :: l2) o) log)
      = exit_status (merge_and_exit env (with_inputs (l1 ++ l2) o) log')) as Hmerge.
  { intros log log'. unfold written, merge_and_exit, run_threw.
    cbn [transport consumed exit_status ignore_file_errors with_inputs].
    by rewrite Hd, Hf, He, Hr. }
  destruct (decide (output_filename o = "")); [apply Hmerge|].
  destruct (file_exists env (output_filename o)); [done|apply Hmerge].
Qed.

Lemma main_open_failure_isolated_witness :
  written (main demo_env (Some (with_inputs (["A"] ++ "B" :: ["C"]) (bare_options []))))
  = written (main demo_env (Some (with_inputs (["A"] ++ ["C"]) (bare_options [])))).
Proof.
  apply (main_open_failure_isolated demo_env (bare_options []) ["A"] ["C"] "B");
    [reflexivity|reflexivity|done].
Defined.

(** X17: [main] does not look whether any stream was registered: when
    none of the inputs opens, it runs the multiplexer on no stream,
    nothing is delivered or written, and the exit status is success. *)
Theorem main_no_input_opens (env : Env) (o : Options) :
  reaches_merge env o →
  Forall (λ input, open_input env o (start_of env o) 0 input = None) (inputs o) →
  let out := main env (Some o) in
  exit_status out = EXIT_SUCCESS ∧ consumed out = [] ∧ written out = [].
Proof.
  intros [log Hmain]%main_merges Hall. cbn zeta. rewrite Hmain.
  assert (dfm (opened env o) = []) as Hdfm.
  { apply length_zero_iff_nil. unfold opened. rewrite open_inputs_dfm_length. cbn.
    apply length_zero_iff_nil.
    induction Hall as [|input rest Hinput _ IH]; [done|].
    rewrite filter_cons, Hinput, decide_False by (by intros [? ?]). done. }
  unfold written, merge_and_exit, merge_of. cbn [exit_status consumed transport].
  rewrite Hdfm.
  change (mplex_run [] ?h) with (mkRun [] [] h Exhausted false).
  cbn [final delivered]. unfold run_threw. cbn [ending read_error].
  destruct (handler_of_fields env o (stream_names (opened env o))) as (-> & _).
  pose proof (chain_released (terminal_of o) (tail_len o) (trim_len o) []) as Hout.
  cbn [foldl] in Hout. rewrite Hout. unfold window.
  split_and!; [by destruct (ignore_file_errors o)|done|by case_decide].
Qed.

Lemma main_no_input_opens_witness :
  exit_status (main demo_env (Some (bare_options ["B"]))) = EXIT_SUCCESS.
Proof.
  apply (main_no_input_opens demo_env (bare_options ["B"])).
  - unfold reaches_merge. split_and!; [done|by vm_compute|done|by left].
  - repeat constructor.
Defined.

(** ** Input specifications as text *)

Lemma prefix_plus (b : Ascii.ascii) (s : string) :
  String.prefix "+" (String b s) = bool_decide (b = "+"%char).
Proof.
  destruct (decide (b = "+"%char)) as [->|Hb].
  - rewrite bool_decide_eq_true_2 by done. cbn. by destruct s.
  - rewrite bool_decide_eq_false_2 by done.
    destruct (String.prefix "+" (String b s)) eqn:Hp; [|done].
    apply (proj1 (String.prefix_correct _ _)) in Hp. cbn in Hp. by injection Hp.
Qed.

Lemma append_cons (c : Ascii.ascii) (p q : string) :
  String c p +:+ q = String c (p +:+ q).
Proof. reflexivity. Qed.

Lemma append_assoc (p q r : string) : (p +:+ q) +:+ r = p +:+ q +:+ r.
Proof. induction p as [|c p IH]; [done|]. rewrite !append_cons. by rewrite IH. Qed.

Lemma substring_all (s : string) : String.substring 0 (String.length s) s = s.
Proof. induction s as [|c s IH]; [done|]. cbn. by rewrite IH. Qed.

Lemma substring_app_l (p q : string) :
  String.substring 0 (String.length p) (p +:+ q) = p.
Proof.
  induction p as [|c p IH]; [by destruct q|].
  rewrite append_cons. cbn. by rewrite IH.
Qed.

Lemma substring_app_r (p q : string) (m : nat) :
  String.substring (String.length p) m (p +:+ q) = String.substring 0 m q.
Proof. induction p as [|c p IH]; [done|]. rewrite append_cons. cbn. exact IH. Qed.

Lemma substring_split (s : string) (k : nat) :
  k ≤ String.length s →
  s = String.substring 0 k s +:+ String.substring k (String.length s - k) s.
Proof.
  revert k. induction s as [|c s IH]; intros k Hk.
  { cbn in Hk. by replace k with 0 by lia. }
  destruct k as [|k]; cbn.
  - by rewrite substring_all.
  - rewrite append_cons. f_equal. apply IH. cbn in Hk. lia.
Qed.

Lemma length_append (p q : string) :
  String.length (p +:+ q) = String.length p + String.length q.
Proof. induction p as [|c p IH]; [done|]. rewrite append_cons. cbn. by rewrite IH. Qed.

Lemma index_plus_some (s : string) (pos : nat) :
  String.index 0 "+" s = Some pos →
  pos < String.length s
  ∧ String.index 0 "+" (String.substring 0 pos s) = None
  ∧ s = String.substring 0 pos s +:+ "+"
        +:+ String.substring (pos + 1) (String.length s - (pos + 1)) s.
Proof.
  revert pos. induction s as [|b s IH]; intros pos; [done|].
  cbn [String.index]. rewrite prefix_plus. case_bool_decide as Hb.
  - intros [= <-]. subst b. cbn. rewrite Nat.sub_0_r, substring_all. split_and!; [lia|done|done].
  - destruct (String.index 0 "+" s) as [n|] eqn:Hn; [|done]. intros [= <-].
    destruct (IH n eq_refl) as (Hlt & Hnone & Hs). cbn [String.length].
    split_and!; [lia| |].
    + cbn [String.substring String.index]. rewrite prefix_plus, bool_decide_eq_false_2 by done.
      by rewrite Hnone.
    + cbn. rewrite append_cons. f_equal. exact Hs.
Qed.

Lemma index_plus_join (f tm : string) :
  String.index 0 "+" f = None →
  String.index 0 "+" (f +:+ "+" +:+ tm) = Some (String.length f).
Proof.
  induction f as [|b f IH]; intros Hf.
  { change ("" +:+ "+" +:+ tm) with (String "+" tm). cbn [String.index].
    by rewrite prefix_plus, bool_decide_eq_true_2. }
  cbn [String.index] in Hf. rewrite prefix_plus in Hf.
  case_bool_decide as Hb; [done|].
  destruct (String.index 0 "+" f) as [n|] eqn:Hn; [done|].
  rewrite append_cons. cbn [String.index String.length].
  rewrite prefix_plus, bool_decide_eq_false_2 by done.
  by rewrite IH.
Qed.

(** X12: a name without ['+'] is its own file name, with no delay; and the
    name, a ['+'] and a text give back the name and the delay the text
    stands for, or throw when the text is no duration. *)
Theorem extract_fname_join (env : Env) (filename tmStr : string) :
  String.index 0 "+" filename = None →
  extract_fname env filename = Some (filename, 0%Z)
  ∧ extract_fname env (filename +:+ "+" +:+ tmStr)
    = (λ delay, (filename, delay)) <$> duration_cast env tmStr.
Proof.
  intros Hplain. split.
  - unfold extract_fname. by rewrite Hplain.
  - unfold extract_fname. rewrite index_plus_join by done.
    rewrite substring_app_l.
    replace (String.length filename + 1) with (String.length (filename +:+ "+"))
      by apply length_append.
    replace (filename +:+ "+" +:+ tmStr) with ((filename +:+ "+") +:+ tmStr) at 2
      by apply append_assoc.
    rewrite substring_app_r.
    replace (String.length (filename +:+ "+" +:+ tmStr) - String.length (filename +:+ "+"))
      with (String.length tmStr) by (rewrite !length_append; cbn; lia).
    rewrite substring_all. by destruct (duration_cast env tmStr).
Qed.

Lemma extract_fname_join_witness :
  extract_fname demo_env ("info.20060501" +:+ "+" +:+ "1.0")
  = Some ("info.20060501", 1000000%Z).
Proof. apply (extract_fname_join demo_env "info.20060501" "1.0"). reflexivity. Defined.

(** X13: the file name [extract_fname] returns never holds a ['+']; the
    input is that name with no delay, or that name, a ['+'] and a text
    that stands for the delay returned. *)
Theorem extract_fname_split (env : Env) (str filename : string) (delay : Z) :
  extract_fname env str = Some (filename, delay) →
  String.index 0 "+" filename = None
  ∧ (str = filename ∧ delay = 0%Z
     ∨ ∃ tmStr, str = filename +:+ "+" +:+ tmStr
                ∧ duration_cast env tmStr = Some delay).
Proof.
  unfold extract_fname.
  destruct (String.index 0 "+" str) as [pos|] eqn:Hpos.
  - destruct (index_plus_some str pos Hpos) as (Hlt & Hnone & Hstr).
    destruct (duration_cast env _) as [d|] eqn:Hcast; [|done].
    intros [= <- <-]. split; [done|]. right. by eexists.
  - intros [= <- <-]. split; [done|]. by left.
Qed.

Lemma extract_fname_split_witness :
  String.index 0 "+" "-" = None.
Proof. apply (extract_fname_split demo_env "-+1.0" "-" 1000000%Z). reflexivity. Defined.

Lemma is_gz_suffix_1 (p : string) : is_gz (p +:+ ".gz") = true.
Proof.
  unfold is_gz. apply bool_decide_eq_true_2.
  rewrite length_append. cbn [String.length].
  replace (Nat.min 3 (String.length p + 3)) with 3 by lia.
  replace (String.length p + 3 - 3) with (String.length p) by lia.
  by rewrite substring_app_r.
Qed.

(** X18: a file is taken as compressed exactly when its name ends in
    ".gz", the name ".gz" itself included. *)
Theorem is_gz_suffix (filename : string) :
  is_gz filename = true ↔ ∃ p, filename = p +:+ ".gz".
Proof.
  split; [|intros [p ->]; apply is_gz_suffix_1].
  unfold is_gz. intros Hgz%bool_decide_eq_true_1.
  set (n := String.length filename) in *.
  exists (String.substring 0 (n - Nat.min 3 n) filename).
  rewrite <-Hgz.
  etrans; [apply (substring_split filename (n - Nat.min 3 n)); lia|].
  do 2 f_equal. fold n. lia.
Qed.

Lemma handler_stop {T : Type} `{!ISendTransport T}
    (rounds : nat) (slots : list Slot) (h : MessageHandler T) (failed : bool) :
  let r := mplex_loop rounds slots h failed in
  ending r = Stopped →
  ∃ o m, last (delivered r) = Some (o, m) ∧ stop_reason (final r) m.
Proof.
  revert slots h failed. induction rounds as [|rounds IH]; intros slots h failed; [done|].
  cbn zeta. cbn [mplex_loop]. destruct (refill slots) as [live err].
  destruct (select live) as [[[o m] live']|]; [|done].
  cbn [onMessage MessageHandler_callback]. unfold handler_onMessage.
  assert (∀ label,
    let r := match dispatch h m label with
             | Raised _ => mkRun [(o, m)] [] h Thrown (failed || err)
             | Returned h' true label =>
                 after_delivery o m label (mkRun [] [] h' Stopped (failed || err))
             | Returned h' false label =>
                 after_delivery o m label (mplex_loop rounds live' h' (failed || err))
             end in
    ending r = Stopped →
    ∃ o m, last (delivered r) = Some (o, m) ∧ stop_reason (final r) m) as Hstep.
  { intros label.
    assert (match dispatch h m label with
            | Returned h' true _ => h' = h ∧ stop_reason h m
            | _ => True
            end) as Hwhy.
    { unfold dispatch, stop_reason. repeat case_decide; try done; split; try done.
      - by left.
      - by right. }
    destruct (dispatch h m label) as [what|h' [|] label']; [done| |].
    - destruct Hwhy as [Heq Hwhy]. subst h'. cbn zeta. intros _. by exists o, m.
    - cbn zeta. cbn [after_delivery ending delivered final]. intros Hend.
      destruct (IH live' h' (failed || err) Hend) as (o' & m' & Hlast & Hwhy').
      exists o', m'. split; [|done].
      destruct (delivered (mplex_loop rounds live' h' (failed || err))); [done|].
      by rewrite last_cons, Hlast. }
  destruct (m_streamNames h) as [names|]; [|apply Hstep].
  destruct (names !! o) as [name|]; [apply Hstep|done].
Qed.

Lemma merge_final_fields (env : Env) (o : Options) :
  m_endTv (final (merge_of env o)) = end_of env o
  ∧ m_headLen (final (merge_of env o)) = head_len o.
Proof.
  unfold merge_of, mplex_run.
  set (h := handler_of env o _). set (slots := (λ s, mkSlot s None) <$> _).
  destruct (handler_of_fields env o (stream_names (opened env o)))
    as (_ & _ & _ & Hendtv & Hhead). fold h in Hendtv, Hhead.
  destruct (handler_run (S (length (backlog slots))) slots h false)
    as (_ & _ & _ & He & Hh & _). cbn zeta in *.
  by rewrite He, Hh.
Qed.

(** X19: the handler of [main] stops the run only at a message that
    arrives when the head length has been forwarded, or whose time is not
    before the end time. *)
Theorem main_stop_reason (env : Env) (o : Options) :
  ending (merge_of env o) = Stopped →
  ∃ origin m, last (delivered (merge_of env o)) = Some (origin, m)
    ∧ ((0 < head_len o ∧ length (forwarded env o) = head_len o)
       ∨ (end_of env o ≤ time_sent m)%Z).
Proof.
  intros Hend.
  assert (∃ origin m, last (delivered (merge_of env o)) = Some (origin, m)
                      ∧ stop_reason (final (merge_of env o)) m)
    as (origin & m & Hlast & Hwhy) by (by apply handler_stop).
  exists origin, m. split; [done|].
  unfold stop_reason in Hwhy.
  destruct (merge_written env o []) as [_ Hseen].
  destruct (merge_final_fields env o) as [He Hh].
  rewrite He, Hh, Hseen in Hwhy.
  destruct Hwhy as [[Hpos Hle]|Hlate]; [left|by right].
  split; [done|]. pose proof (forwarded_head env o Hpos). lia.
Qed.

Lemma main_stop_reason_witness :
  ending (merge_of demo_env (with_range "" "5" (bare_options ["A"; "B"; "C"]))) = Stopped
  ∧ ∃ origin m,
      last (delivered (merge_of demo_env (with_range "" "5" (bare_options ["A"; "B"; "C"]))))
      = Some (origin, m)
      ∧ ((0 < 0 ∧ length (forwarded demo_env
                            (with_range "" "5" (bare_options ["A"; "B"; "C"]))) = 0)
         ∨ (5 ≤ time_sent m)%Z).
Proof.
  assert (ending (merge_of demo_env (with_range "" "5" (bare_options ["A"; "B"; "C"])))
          = Stopped) as Hend by (vm_compute; reflexivity).
  split; [exact Hend|].
  apply (main_stop_reason demo_env (with_range "" "5" (bare_options ["A"; "B"; "C"])) Hend).
Defined.

(** ** The file names printed *)

Lemma dispatch_label {T : Type} `{!ISendTransport T} (h : MessageHandler T) (m : Msg)
    (label : option string) :
  match dispatch h m label with
  | Raised _ => False
  | Returned _ _ label' => label' = label
  end.
Proof. unfold dispatch. by repeat case_decide. Qed.

(** The names the handler prints are those on record for the streams
    the messages come from, one for every message it is handed and does
    not throw at, forwarded or not; it prints none when it has no names. *)
Lemma handler_labels {T : Type} `{!ISendTransport T}
    (rounds : nat) (slots : list Slot) (h : MessageHandler T) (failed : bool) :
  let r := mplex_loop rounds slots h failed in
  labels r
  = if m_streamNames h is Some names then omap (λ d, names !! d.1) (delivered r) else [].
Proof.
  revert slots h failed. induction rounds as [|rounds IH]; intros slots h failed.
  { cbn. by destruct (m_streamNames h). }
  cbn zeta. cbn [mplex_loop]. destruct (refill slots) as [live err].
  destruct (select live) as [[[o m] live']|]; [|cbn; by destruct (m_streamNames h)].
  cbn [onMessage MessageHandler_callback]. unfold handler_onMessage.
  destruct (m_streamNames h) as [names|] eqn:Hnames.
  - destruct (names !! o) as [name|] eqn:Hname; [|cbn; by rewrite Hname].
    pose proof (dispatch_label h m (Some name)) as Hlabel.
    pose proof (dispatch_names h m (Some name)) as Hkeep.
    destruct (dispatch h m (Some name)) as [what|h' [|] label]; [done| |]; subst label.
    + cbn. by rewrite Hname.
    + cbn [after_delivery labels delivered option_list app omap list_omap fst].
      specialize (IH live' h' (failed || err)). cbn zeta in IH.
      rewrite Hkeep, Hnames in IH. rewrite IH. cbn. by rewrite Hname.
  - pose proof (dispatch_label h m None) as Hlabel.
    pose proof (dispatch_names h m None) as Hkeep.
    destruct (dispatch h m None) as [what|h' [|] label]; [done| |]; subst label.
    + done.
    + cbn [after_delivery labels option_list app].
      specialize (IH live' h' (failed || err)). cbn zeta in IH.
      by rewrite Hkeep, Hnames in IH.
Qed.

Lemma open_input_key (env : Env) (o : Options) (start_tv : Z) (i : nat)
    (input : string) (op : Opened) :
  open_input env o start_tv i input = Some op →
  name_key op = i ∧ fst <$> extract_fname env input = Some (name op).
Proof.
  unfold open_input.
  destruct (extract_fname env input) as [[filename delay]|]; [|done]. cbn.
  destruct (decide (filename = "-")); [|destruct (_ || _)]; cbn;
    try destruct (open_file env filename (is_gz filename)); cbn; try done;
    destruct (decide (delay = 0%Z)); by intros [= <-].
Qed.

(** The names on record after the loop over the inputs: for the stream
    of every input that opened, the file name part of that input. *)
Lemma open_inputs_names_lookup (env : Env) (o : Options) (start_tv : Z) (i : nat)
    (l : list string) (acc : Opening) (j : nat) :
  print_names o = true →
  stream_names (open_inputs env o start_tv i l acc) !! j
  = match (if decide (i ≤ j) then l !! (j - i) else None) ≫= open_input env o start_tv j with
    | Some op => Some (name op)
    | None => stream_names acc !! j
    end.
Proof.
  intros Hprint. revert i acc. induction l as [|input rest IH]; intros i acc.
  { cbn. by destruct (decide (i ≤ j)). }
  cbn [open_inputs]. rewrite IH.
  assert (∀ k, k ≠ j →
    stream_names
      match open_input env o start_tv k input with
      | Some op =>
          mkOpening (dfm acc ++ [registered op])
            (if print_names o then <[name_key op := name op]> (stream_names acc)
             else stream_names acc)
            (opening_log acc ++ [OpenedStream (reader op) (delay_of op)])
      | None => mkOpening (dfm acc) (stream_names acc) (opening_log acc ++ [Warned input])
      end !! j = stream_names acc !! j) as Hother.
  { intros k Hk. destruct (open_input env o start_tv k input) as [op|] eqn:Hop; [|done].
    cbn. rewrite Hprint. destruct (open_input_key _ _ _ _ _ _ Hop) as [-> _].
    by rewrite lookup_insert_ne. }
  destruct (decide (S i ≤ j)) as [Hlater|Hnot].
  - rewrite (decide_True (P := i ≤ j)) by lia.
    replace (j - i) with (S (j - S i)) by lia. cbn [lookup list_lookup].
    destruct (rest !! (j - S i) ≫= open_input env o start_tv j); [done|].
    apply Hother. lia.
  - cbn [mbind option_bind]. destruct (decide (i ≤ j)) as [Hhere|Hbefore].
    + assert (j = i) as -> by lia. rewrite Nat.sub_diag. cbn.
      destruct (open_input env o start_tv i input) as [op|] eqn:Hop; [|done].
      cbn. rewrite Hprint. destruct (open_input_key _ _ _ _ _ _ Hop) as [-> _].
      by rewrite lookup_insert_eq.
    + cbn. apply Hother. lia.
Qed.

(** X20: when file names are printed, what is printed before a message is
    the name on record for the stream the multiplexer says the message
    comes from, for every message the handler is handed and does not throw
    at, also those it then drops or stops at; and the name on record for
    the stream of an input is the file name part of that input, without
    the delay. When file names are not printed, nothing is. *)
Theorem main_labels (env : Env) (o : Options) :
  labels (merge_of env o)
  = (if names_printed o then
       omap (λ d, stream_names (opened env o) !! d.1) (delivered (merge_of env o))
     else [])
  ∧ (print_names o = true → ∀ j, stream_names (opened env o) !! j = input_name env o j).
Proof.
  split.
  - unfold merge_of, mplex_run.
    rewrite handler_labels, handler_of_names. by destruct (names_printed o).
  - intros Hprint j. unfold opened, input_name.
    rewrite open_inputs_names_lookup by done. rewrite decide_True by lia.
    rewrite Nat.sub_0_r. destruct (inputs o !! j) as [input|]; [|done]. cbn.
    destruct (open_input env o (start_of env o) j input) as [op|] eqn:Hop; [|done]. cbn.
    by destruct (open_input_key _ _ _ _ _ _ Hop) as [_ ->].
Qed.

Lemma main_labels_witness :
  print_names naming_options = true
  ∧ (delivered (merge_of demo_env naming_options)).*1 = [0; 0; 2; 2; 0]
  ∧ labels (merge_of demo_env naming_options) = ["A"; "A"; "C"; "C"; "A"]
  ∧ stream_names (opened demo_env naming_options) !! 2 = Some "C".
Proof.
  destruct (main_labels demo_env naming_options) as [Hlabels Hnames].
  split; [reflexivity|]. split; [vm_compute; reflexivity|]. split.
  - rewrite Hlabels. vm_compute. reflexivity.
  - rewrite (Hnames eq_refl 2). vm_compute. reflexivity.
Defined.
